(** * Vine: balanced-ternary memory and two-pass assembler

    A shallow embedding of [src/core/vm/Memory.ts] and
    [src/core/asm/assemble.ts].  The numeral codec ([s2t], [t2n], [n2t]),
    the ALU's [add] and the instruction encoder [assembleInstruction] live in
    [ALU.ts] and [Instruction.ts], which are not part of the sources; they
    are modelled from the specification and marked as such. *)

From Stdlib Require Import ZArith Lia Ascii String List.
From stdpp Require Import base gmap strings list.
Import ListNotations.
Open Scope Z_scope.

(* ------------------------------------------------------------------ *)
(** ** Exceptions and the error monad *)

(** The exceptions the code throws.  [Error msg] is JavaScript's
    [new Error(msg)]. *)
Inductive exn :=
| FormatError
| RangeError
| TypeError
| EncodeError
| UndeclaredLabelError (name : string)
| Error (msg : string).

Inductive res (A : Type) : Type :=
| Ok (a : A)
| Throw (e : exn).
Arguments Ok {A} a.
Arguments Throw {A} e.

Definition res_bind {A B} (m : res A) (f : A -> res B) : res B :=
  match m with
  | Ok a => f a
  | Throw e => Throw e
  end.

Global Instance res_mbind : MBind res := fun A B f m => res_bind m f.
Global Instance res_mret : MRet res := @Ok.

(* ------------------------------------------------------------------ *)
(** ** Numeral codec (ALU.ts) *)

Inductive trit := TNeg | TZero | TPos.

(** A tryte: nine trits, most significant first. *)
Definition tryte := list trit.

Definition trit_val (d : trit) : Z :=
  match d with TNeg => -1 | TZero => 0 | TPos => 1 end.

Definition trit_of_Z (r : Z) : trit :=
  if r <? 0 then TNeg else if r =? 0 then TZero else TPos.

Definition TRYTE_NUM_VALUES : Z := 19683.

(** Modelled from the spec: [wordToInt] of ALU.ts (not in the sources),
    value = sum of trit[i] * 3^(8-i). *)
Definition t2n_word (w : tryte) : Z :=
  fold_left (fun acc d => 3 * acc + trit_val d) w 0.

(** [k] balanced-ternary digits of [n], most significant first. *)
Fixpoint digits (k : nat) (n : Z) : list trit :=
  match k with
  | O => []
  | S k' =>
      let r := (n + 1) mod 3 - 1 in
      digits k' ((n - r) / 3) ++ [trit_of_Z r]
  end.

Definition in_word_range (n : Z) : bool := (-9841 <=? n) && (n <=? 9841).

(** Modelled from the spec: [intToWord] of ALU.ts (not in the sources);
    fails with [RangeError] outside [-9841, 9841]. *)
Definition n2t (n : Z) : res tryte :=
  if in_word_range n then Ok (digits 9 n) else Throw RangeError.

Definition trit_of_char (c : ascii) : option trit :=
  if Ascii.eqb c "-"%char then Some TNeg
  else if Ascii.eqb c "o"%char then Some TZero
  else if Ascii.eqb c "+"%char then Some TPos
  else None.

Fixpoint s2t_chars (s : string) : option (list trit) :=
  match s with
  | EmptyString => Some []
  | String c s' =>
      match trit_of_char c, s2t_chars s' with
      | Some d, Some ds => Some (d :: ds)
      | _, _ => None
      end
  end.

(** Modelled from the spec: [stringToWord] of ALU.ts (not in the sources);
    nine characters over [-], [o], [+], else [FormatError]. *)
Definition s2t (s : string) : res tryte :=
  if (String.length s =? 9)%nat then
    match s2t_chars s with
    | Some ds => Ok ds
    | None => Throw FormatError
    end
  else Throw FormatError.

(** The [Tryte | number] arguments of [Memory.load] and [Memory.store]. *)
Inductive tn :=
| TTryte (w : tryte)
| TNum (n : Z).

(** Modelled from the spec: [t2n] of ALU.ts (not in the sources).  The spec
    says both argument kinds "internally round-trip through the Numeral
    Codec": a number goes through [intToWord] first. *)
Definition t2n (x : tn) : res Z :=
  match x with
  | TTryte w => Ok (t2n_word w)
  | TNum n => w ← n2t n; Ok (t2n_word w)
  end.

(** A tryte argument is nine trits. *)
Definition wf_tn (x : tn) : Prop :=
  match x with
  | TTryte w => length w = 9%nat
  | TNum _ => True
  end.

(** The integer an address argument stands for. *)
Definition tn_value (x : tn) : Z :=
  match x with
  | TTryte w => t2n_word w
  | TNum n => n
  end.

(* ------------------------------------------------------------------ *)
(** ** Memory (Memory.ts) *)

(** Writing a number into an [Int32Array] applies ToInt32. *)
Definition to_int32 (z : Z) : Z :=
  let m := z mod 2 ^ 32 in
  if 2 ^ 31 <=? m then m - 2 ^ 32 else m.

(** [block[i]] of an [Int32Array]: [undefined] out of bounds. *)
Definition i32_get (b : list Z) (i : Z) : option Z :=
  if i <? 0 then None else b !! Z.to_nat i.

(** [block[i] = v]: ignored out of bounds. *)
Definition i32_set (b : list Z) (i v : Z) : list Z :=
  if i <? 0 then b else <[Z.to_nat i := to_int32 v]> b.

Record Memory := { block : list Z }.

(** [constructor(size = TRYTE_NUM_VALUES)]: [size] is not used. *)
Definition Memory_new (size : option Z) : Memory :=
  {| block := repeat 0 (Z.to_nat TRYTE_NUM_VALUES) |}.

(** [load(addr)]: [n2t(this.block[t2n(addr) + 9841])]; [n2t(undefined)] is
    taken to throw. *)
Definition load (m : Memory) (addr : tn) : res tryte :=
  a ← t2n addr;
  match i32_get (block m) (a + 9841) with
  | Some v => n2t v
  | None => Throw TypeError
  end.

(** [store(value, addr)]. *)
Definition store (m : Memory) (value addr : tn) : res Memory :=
  addrNumber ← t2n addr;
  valueNumber ← t2n value;
  Ok {| block := i32_set (block m) (addrNumber + 9841) valueNumber |}.

(* ------------------------------------------------------------------ *)
(** ** ALU addition (ALU.ts) *)

(** Largest magnitude of [k] balanced trits: 0, 1, 4, 13, 40, ..., 9841. *)
Fixpoint trit_bound (k : nat) : Z :=
  match k with
  | O => 0
  | S k' => 3 * trit_bound k' + 1
  end.

(** Modelled from the spec: wrap-around at the +-9841 boundary. *)
Definition wrap (n : Z) : Z := (n + 9841) mod TRYTE_NUM_VALUES - 9841.

(** Modelled from the spec: [alu.add(a, b)] of ALU.ts (not in the sources)
    overwrites [a] with the wrapped sum; here it returns the new value. *)
Definition alu_add (a b : tryte) : tryte :=
  digits 9 (wrap (t2n_word a + t2n_word b)).

(** [n2t(k)] on an integer literal of the source, all of them in range. *)
Definition n2t_const (k : Z) : tryte := digits 9 k.

(* ------------------------------------------------------------------ *)
(** ** JavaScript string helpers on ASCII strings *)

Definition is_empty (s : string) : bool :=
  match s with EmptyString => true | _ => false end.

(** White space removed by [String.prototype.trim]. *)
Definition is_js_space (c : ascii) : bool :=
  let n := nat_of_ascii c in
  ((9 <=? n) && (n <=? 13))%nat || (n =? 32)%nat || (n =? 160)%nat.

Fixpoint trim_start (s : string) : string :=
  match s with
  | EmptyString => EmptyString
  | String c s' => if is_js_space c then trim_start s' else s
  end.

Fixpoint trim_end (s : string) : string :=
  match s with
  | EmptyString => EmptyString
  | String c s' =>
      let t := trim_end s' in
      if is_js_space c && is_empty t then EmptyString else String c t
  end.

Definition trim (s : string) : string := trim_end (trim_start s).

Definition ascii_upper (c : ascii) : ascii :=
  let n := nat_of_ascii c in
  if ((97 <=? n) && (n <=? 122))%nat then ascii_of_nat (n - 32) else c.

Definition ascii_lower (c : ascii) : ascii :=
  let n := nat_of_ascii c in
  if ((65 <=? n) && (n <=? 90))%nat then ascii_of_nat (n + 32) else c.

Fixpoint str_map (f : ascii -> ascii) (s : string) : string :=
  match s with
  | EmptyString => EmptyString
  | String c s' => String (f c) (str_map f s')
  end.

Definition toUpperCase (s : string) : string := str_map ascii_upper s.
Definition toLowerCase (s : string) : string := str_map ascii_lower s.

(** [s.split(sep)] for a one-character separator. *)
Fixpoint split (sep : ascii) (s : string) : list string :=
  match s with
  | EmptyString => [EmptyString]
  | String c s' =>
      if Ascii.eqb c sep then EmptyString :: split sep s'
      else match split sep s' with
           | [] => [String c EmptyString]
           | h :: t => String c h :: t
           end
  end.

(** A character [.] of a regular expression does not match. *)
Fixpoint has_line_terminator (s : string) : bool :=
  match s with
  | EmptyString => false
  | String c s' =>
      Ascii.eqb c "010"%char || Ascii.eqb c "013"%char || has_line_terminator s'
  end.

(** [line.replace(/;.*$/, '')]: cut at the leftmost [;] from which [.*]
    reaches the end of the string. *)
Fixpoint strip_comment (s : string) : string :=
  match s with
  | EmptyString => EmptyString
  | String c s' =>
      if Ascii.eqb c ";"%char && negb (has_line_terminator s') then EmptyString
      else String c (strip_comment s')
  end.

(** The line filter at the top of [assemble]. *)
Definition preprocess (input : string) : list string :=
  filter (fun l => negb (is_empty l))
    (map (fun l => trim (strip_comment l)) (split "010"%char input)).

(* ------------------------------------------------------------------ *)
(** ** Instructions (Instruction.ts types) *)

Inductive AddressingMode := REGISTER_REGISTER | SHORT_IMMEDIATE | WORD_IMMEDIATE.

(** The [z] field: an immediate tryte or a label name. *)
Inductive zval :=
| ZTryte (t : tryte)
| ZLabel (name : string).

Record InstructionLabeled := {
  opcode : tryte;
  addressingMode : AddressingMode;
  x : tryte;
  y : tryte;
  z : option zval
}.

(** JavaScript truthiness of a [Tryte | string] value: arrays are truthy,
    the empty string is not. *)
Definition zval_truthy (v : zval) : bool :=
  match v with
  | ZTryte _ => true
  | ZLabel s => negb (is_empty s)
  end.

Definition z_truthy (v : option zval) : bool :=
  match v with
  | Some v => zval_truthy v
  | None => false
  end.

(* ------------------------------------------------------------------ *)
(** ** The parser (assemble.ts) *)

Definition expect {A} (maybe : option A) (error : string) : res A :=
  match maybe with
  | Some a => Ok a
  | None => Throw (Error error)
  end.

Fixpoint parts_loop (s : string) (operands : list string) (buffer : string)
  : list string :=
  match s with
  | EmptyString =>
      if is_empty buffer then operands else operands ++ [buffer]
  | String c s' =>
      match operands with
      | [] =>
          if Ascii.eqb c " "%char then parts_loop s' [buffer] EmptyString
          else parts_loop s' operands (String.append buffer (String c EmptyString))
      | _ :: _ =>
          if Ascii.eqb c ","%char then parts_loop s' (operands ++ [buffer]) EmptyString
          else parts_loop s' operands (String.append buffer (String c EmptyString))
      end
  end.

Definition parseInstructionParts (line : string) : list string :=
  parts_loop line [] EmptyString.

(** [!operand]: [undefined] or the empty string. *)
Definition falsy_operand (operand : option string) : bool :=
  match operand with
  | None => true
  | Some o => is_empty o
  end.

Definition parseRegisterOperand (operand : option string) : option tryte :=
  match operand with
  | Some o =>
      if is_empty o then None else
      let trimmed := toLowerCase (trim o) in
      if String.eqb trimmed "r0" then Some (n2t_const (-4))
      else if String.eqb trimmed "r1" then Some (n2t_const (-3))
      else if String.eqb trimmed "r2" then Some (n2t_const (-2))
      else if String.eqb trimmed "r3" then Some (n2t_const (-1))
      else if String.eqb trimmed "r4" then Some (n2t_const 0)
      else if String.eqb trimmed "r5" then Some (n2t_const 1)
      else if String.eqb trimmed "r6" then Some (n2t_const 2)
      else if String.eqb trimmed "ra" then Some (n2t_const 3)
      else if String.eqb trimmed "sp" then Some (n2t_const 4)
      else None
  | None => None
  end.

Definition parseImmediateOperand (operand : option string) : option tryte :=
  match operand with
  | Some o =>
      if is_empty o then None else
      match s2t (trim o) with
      | Ok t => Some t
      | Throw _ => None
      end
  | None => None
  end.

Definition parseAddressOperand (operand : option string) : option zval :=
  match operand with
  | Some o =>
      if is_empty o then None else
      match trim o with
      | String "."%char rest => Some (ZLabel rest)
      | trimmed =>
          match s2t trimmed with
          | Ok t => Some (ZTryte t)
          | Throw _ => None
          end
      end
  | None => None
  end.

Definition isShort (value : tryte) : bool :=
  let n := t2n_word value in
  (4 <? n) && (n <? -4).

Definition unionParseYZ (opc xv : tryte) (operand : option string)
  (allowLabel : bool) : option InstructionLabeled :=
  match parseRegisterOperand operand with
  | Some asRegister =>
      Some {| opcode := opc; x := xv; addressingMode := REGISTER_REGISTER;
              y := asRegister; z := None |}
  | None =>
      match parseImmediateOperand operand with
      | Some asImmediate =>
          if isShort asImmediate then
            Some {| opcode := opc; x := xv; addressingMode := SHORT_IMMEDIATE;
                    y := asImmediate; z := None |}
          else
            Some {| opcode := opc; x := xv; addressingMode := WORD_IMMEDIATE;
                    y := n2t_const 0; z := Some (ZTryte asImmediate) |}
      | None =>
          if allowLabel then
            match parseAddressOperand operand with
            | Some asAddress =>
                if zval_truthy asAddress then
                  Some {| opcode := opc; x := xv; addressingMode := WORD_IMMEDIATE;
                          y := n2t_const 0; z := Some asAddress |}
                else None
            | None => None
            end
          else None
      end
  end.

(** [operands.shift()]. *)
Definition shift (operands : list string) : option string * list string :=
  match operands with
  | [] => (None, [])
  | o :: rest => (Some o, rest)
  end.

(** The shape shared by MOV, ADD, MUL, DIV, STA and LDA: a register, then
    a register or an immediate. *)
Definition parse_reg_yz (opc : Z) (msg1 msg2 : string) (operands : list string)
  : res (InstructionLabeled * list string) :=
  let '(o1, ops1) := shift operands in
  xv ← expect (parseRegisterOperand o1) msg1;
  let '(o2, ops2) := shift ops1 in
  i ← expect (unionParseYZ (n2t_const opc) xv o2 false) msg2;
  Ok (i, ops2).

(** [parseInstruction(mnemonic, operands)]; returns the instruction and what
    is left of the mutated [operands]. *)
Definition parseInstruction (mnemonic : string) (operands : list string)
  : res (InstructionLabeled * list string) :=
  let m := toUpperCase mnemonic in
  if String.eqb m "NOP" then
    Ok ({| opcode := n2t_const 0; addressingMode := REGISTER_REGISTER;
           x := n2t_const 0; y := n2t_const 0; z := None |}, operands)
  else if String.eqb m "MOV" then
    parse_reg_yz 0 "MOV: operand 1 (destination) must be a register"
      "MOV: operand 2 (source) must be a register or immediate" operands
  else if String.eqb m "ADD" then
    parse_reg_yz (-39) "ADD: operand 1 must be a register"
      "ADD: operand 2 must be a register or immediate" operands
  else if String.eqb m "MUL" then
    parse_reg_yz (-37) "MUL: operand 1 must be a register"
      "MUL: operand 2 must be a register or immediate" operands
  else if String.eqb m "DIV" then
    parse_reg_yz (-36) "DIV: operand 1 must be a register"
      "DIV: operand 2 must be a register or immediate" operands
  else if String.eqb m "STA" then
    parse_reg_yz 2 "STA: operand 1 must be a register"
      "STA: operand 2 must be a register or address" operands
  else if String.eqb m "LDA" then
    parse_reg_yz 1 "LDA: operand 1 must be a register"
      "LDA: operand 2 must be a register or address" operands
  else if String.eqb m "JMP" then
    let '(o, ops1) := shift operands in
    i ← expect (unionParseYZ (n2t_const 36) (n2t_const 0) o true)
          "JMP: operand must be a register or immediate address";
    Ok (i, ops1)
  else Throw (Error ("unknown operation '" ++ mnemonic ++ "'")).

(* ------------------------------------------------------------------ *)
(** ** The instruction encoder (Instruction.ts) *)

Definition mode_val (m : AddressingMode) : Z :=
  match m with
  | REGISTER_REGISTER => -1
  | SHORT_IMMEDIATE => 0
  | WORD_IMMEDIATE => 1
  end.

(** Does [n] fit a sub-field of [k] trits? *)
Definition fits (k : nat) (n : Z) : bool := Z.abs n <=? trit_bound k.

(** Modelled from the spec: [assembleInstruction] of Instruction.ts (not in
    the sources).  The spec's [encode]: opcode, addressing mode and operand
    selectors packed into sub-fields of the first word, a second word with
    the full value only under WORD_IMMEDIATE, [EncodeError] on an
    out-of-range selector, [UndeclaredLabelError] on an unbound label.  The
    spec does not give the field widths; we take opcode 4 trits, mode 1,
    [x] 2 and [y] 2, the widths the parser's opcodes (up to 39) and
    selectors (up to 4) need. *)
Definition assembleInstruction (i : InstructionLabeled)
  (labels : gmap string tryte) : res (tryte * option tryte) :=
  let op := t2n_word (opcode i) in
  let xv := t2n_word (x i) in
  let yv := t2n_word (y i) in
  if fits 4 op && fits 2 xv && fits 2 yv then
    let w0 := digits 4 op ++ digits 1 (mode_val (addressingMode i))
              ++ digits 2 xv ++ digits 2 yv in
    match addressingMode i with
    | WORD_IMMEDIATE =>
        match z i with
        | Some (ZTryte t) => Ok (w0, Some t)
        | Some (ZLabel name) =>
            match labels !! name with
            | Some a => Ok (w0, Some a)
            | None => Throw (UndeclaredLabelError name)
            end
        | None => Throw EncodeError
        end
    | _ => Ok (w0, None)
    end
  else Throw EncodeError.

(* ------------------------------------------------------------------ *)
(** ** The two passes of [assemble] *)

(** [line[0] != '.'] on a non-empty line. *)
Definition is_label_line (line : string) : bool :=
  match line with
  | String "."%char _ => true
  | _ => false
  end.

(** [line.substr(1)]. *)
Definition substr1 (line : string) : string :=
  match line with
  | EmptyString => EmptyString
  | String _ rest => rest
  end.

(** The state of the first pass: the cursor [address], the label table, the
    [console.warn] output, and (ghost) the cursor at each instruction line. *)
Record P1 := {
  p1_address : tryte;
  p1_labels : gmap string tryte;
  p1_warnings : list string;
  p1_trace : list tryte
}.

Definition pass1_line (st : P1) (line : string) : res P1 :=
  if negb (is_label_line line) then
    match parseInstructionParts line with
    | [] => Throw TypeError
    | mnemonic :: operands =>
        '(instruction, rest) ← parseInstruction mnemonic operands;
        match rest with
        | _ :: _ => Throw (Error (mnemonic ++ ": too many operands"))
        | [] =>
            let a1 := alu_add (p1_address st) (n2t_const 1) in
            let a2 := if z_truthy (z instruction) then alu_add a1 (n2t_const 1) else a1 in
            Ok {| p1_address := a2; p1_labels := p1_labels st;
                  p1_warnings := p1_warnings st;
                  p1_trace := p1_trace st ++ [p1_address st] |}
        end
    end
  else
    let labelName := substr1 line in
    let warnings :=
      match p1_labels st !! labelName with
      | Some _ => p1_warnings st ++ [("label redeclared: " ++ labelName)%string]
      | None => p1_warnings st
      end in
    Ok {| p1_address := p1_address st;
          p1_labels := <[labelName := p1_address st]> (p1_labels st);
          p1_warnings := warnings; p1_trace := p1_trace st |}.

Fixpoint pass1 (lines : list string) (st : P1) : res P1 :=
  match lines with
  | [] => Ok st
  | line :: rest => st' ← pass1_line st line; pass1 rest st'
  end.

(** The state of the second pass: the cursor, the program image [cart], the
    debug [instructions] array, and (ghost) for each instruction line the
    address of its first word and the words stored. *)
Record P2 := {
  p2_address : tryte;
  p2_cart : Memory;
  p2_instructions : gmap Z InstructionLabeled;
  p2_trace : list (tryte * tryte * option tryte)
}.

Definition pass2_line (labels : gmap string tryte) (st : P2) (line : string)
  : res P2 :=
  if negb (is_label_line line) then
    match parseInstructionParts line with
    | [] => Throw TypeError
    | mnemonic :: operands =>
        '(instruction, _) ← parseInstruction mnemonic operands;
        let address := p2_address st in
        let instructions := <[t2n_word address := instruction]> (p2_instructions st) in
        '(d0, d1) ← assembleInstruction instruction labels;
        cart1 ← store (p2_cart st) (TTryte d0) (TTryte address);
        let a1 := alu_add address (n2t_const 1) in
        let tr := p2_trace st ++ [(address, d0, d1)] in
        match d1 with
        | Some w1 =>
            cart2 ← store cart1 (TTryte w1) (TTryte a1);
            Ok {| p2_address := alu_add a1 (n2t_const 1); p2_cart := cart2;
                  p2_instructions := instructions; p2_trace := tr |}
        | None =>
            Ok {| p2_address := a1; p2_cart := cart1;
                  p2_instructions := instructions; p2_trace := tr |}
        end
    end
  else Ok st.

Fixpoint pass2 (labels : gmap string tryte) (lines : list string) (st : P2)
  : res P2 :=
  match lines with
  | [] => Ok st
  | line :: rest => st' ← pass2_line labels st line; pass2 labels rest st'
  end.

(** What [assemble] returns: [{ mem, debug: { labels, instructions } }],
    with the [console.warn] output beside it. *)
Record Assembled := {
  mem : Memory;
  labels : gmap string tryte;
  instructions : gmap Z InstructionLabeled;
  warnings : list string
}.

Definition assemble_lines (lines : list string) (cart : Memory)
  (labels0 : gmap string tryte) : res Assembled :=
  address1 ← s2t "ooooooooo";
  st1 ← pass1 lines {| p1_address := address1; p1_labels := labels0;
                       p1_warnings := []; p1_trace := [] |};
  address2 ← s2t "ooooooooo";
  st2 ← pass2 (p1_labels st1) lines
          {| p2_address := address2; p2_cart := cart;
             p2_instructions := ∅; p2_trace := [] |};
  Ok {| mem := p2_cart st2; labels := p1_labels st1;
        instructions := p2_instructions st2; warnings := p1_warnings st1 |}.

(** [assemble(input)]: a fresh [Memory] and a fresh label [Map]. *)
Definition assemble (input : string) : res Assembled :=
  assemble_lines (preprocess input) (Memory_new None) ∅.

(* ------------------------------------------------------------------ *)
(** ** Opcode tables *)

(** [assembleOpcodeStr(str)] of assemble.ts; no caller uses it. *)
Definition assembleOpcodeStr (str : string) : res tryte :=
  let m := toUpperCase str in
  if String.eqb m "ADD" then Ok (n2t_const (-13))
  else if String.eqb m "ADDC" then Ok (n2t_const (-11))
  else if String.eqb m "MUL" then Ok (n2t_const (-10))
  else if String.eqb m "DIV" then Ok (n2t_const (-9))
  else if String.eqb m "MOD" then Ok (n2t_const (-8))
  else if String.eqb m "NEG" then Ok (n2t_const (-7))
  else if String.eqb m "MIN" then Ok (n2t_const (-6))
  else if String.eqb m "MAX" then Ok (n2t_const (-5))
  else if String.eqb m "CON" then Ok (n2t_const (-4))
  else if String.eqb m "ANY" then Ok (n2t_const (-3))
  else if String.eqb m "RSH" then Ok (n2t_const (-2))
  else if String.eqb m "USH" then Ok (n2t_const (-1))
  else if String.eqb m "NOP" then Ok (n2t_const 0)
  else if String.eqb m "MOV" then Ok (n2t_const 1)
  else if String.eqb m "CMP" then Ok (n2t_const 2)
  else if String.eqb m "JMP" then Ok (n2t_const 3)
  else if String.eqb m "BEQ" then Ok (n2t_const 4)
  else if String.eqb m "BGT" then Ok (n2t_const 5)
  else if String.eqb m "BLT" then Ok (n2t_const 6)
  else if String.eqb m "JAL" then Ok (n2t_const 7)
  else if String.eqb m "LOD" then Ok (n2t_const 8)
  else if String.eqb m "XOR" then Ok (n2t_const 9)
  else Throw (Error ("Unknown instruction: " ++ str)).

(** The spec's opcode table (section 4.4), written from the spec's words to
    be compared with the assembler. *)
Definition spec_opcode_table (m : string) : option Z :=
  if String.eqb m "NOP" then Some 0
  else if String.eqb m "MOV" then Some 1
  else if String.eqb m "CMP" then Some 2
  else if String.eqb m "JMP" then Some 3
  else if String.eqb m "BEQ" then Some 4
  else if String.eqb m "BGT" then Some 5
  else if String.eqb m "BLT" then Some 6
  else if String.eqb m "JAL" then Some 7
  else if String.eqb m "LOD" then Some 8
  else if String.eqb m "XOR" then Some 9
  else if String.eqb m "ADD" then Some (-13)
  else if String.eqb m "ADDC" then Some (-11)
  else if String.eqb m "MUL" then Some (-10)
  else if String.eqb m "DIV" then Some (-9)
  else if String.eqb m "MOD" then Some (-8)
  else if String.eqb m "NEG" then Some (-7)
  else if String.eqb m "MIN" then Some (-6)
  else if String.eqb m "MAX" then Some (-5)
  else if String.eqb m "CON" then Some (-4)
  else if String.eqb m "ANY" then Some (-3)
  else if String.eqb m "RSH" then Some (-2)
  else if String.eqb m "USH" then Some (-1)
  else None.

(** The opcodes [parseInstruction] writes, per upper-cased mnemonic. *)
Definition parser_opcode_table (m : string) : option Z :=
  if String.eqb m "NOP" then Some 0
  else if String.eqb m "MOV" then Some 0
  else if String.eqb m "ADD" then Some (-39)
  else if String.eqb m "MUL" then Some (-37)
  else if String.eqb m "DIV" then Some (-36)
  else if String.eqb m "STA" then Some 2
  else if String.eqb m "LDA" then Some 1
  else if String.eqb m "JMP" then Some 36
  else None.

(** The mnemonics [parseInstruction] has a case for, and those of them
    that take a register and then a register or an immediate. *)
Definition supported_mnemonic (m : string) : bool :=
  existsb (String.eqb m) ["NOP"; "MOV"; "ADD"; "MUL"; "DIV"; "STA"; "LDA"; "JMP"].

Definition two_operand_mnemonic (m : string) : bool :=
  existsb (String.eqb m) ["MOV"; "ADD"; "MUL"; "DIV"; "STA"; "LDA"].

(** A line pass 1 accepts: a label, or an instruction that parses with no
    operand left over. *)
Definition line_parses (line : string) : bool :=
  is_label_line line ||
  match parseInstructionParts line with
  | [] => false
  | mnemonic :: operands =>
      match parseInstruction mnemonic operands with
      | Ok (_, []) => true
      | _ => false
      end
  end.

(* ------------------------------------------------------------------ *)
(** ** Well-formed programs *)

Definition is_word_imm (m : AddressingMode) : bool :=
  match m with WORD_IMMEDIATE => true | _ => false end.

(** The names the label lines of a program declare. *)
Definition declared_labels (lines : list string) : list string :=
  map substr1 (filter is_label_line lines).

(** An instruction line's label operand, if any, is declared. *)
Definition label_operand_ok (declared : list string) (line : string) : bool :=
  if is_label_line line then true else
  match parseInstructionParts line with
  | [] => true
  | mnemonic :: operands =>
      match parseInstruction mnemonic operands with
      | Ok (i, _) =>
          match z i with
          | Some (ZLabel name) => existsb (String.eqb name) declared
          | _ => true
          end
      | Throw _ => true
      end
  end.

(** Every line parses and every label operand is declared somewhere. *)
Definition program_valid (lines : list string) : bool :=
  forallb line_parses lines &&
  forallb (label_operand_ok (declared_labels lines)) lines.

Definition instr_count (lines : list string) : nat :=
  length (filter (fun l => negb (is_label_line l)) lines).

Definition p1_init (labels0 : gmap string tryte) : P1 :=
  {| p1_address := n2t_const 0; p1_labels := labels0;
     p1_warnings := []; p1_trace := [] |}.

Definition p2_init (cart : Memory) : P2 :=
  {| p2_address := n2t_const 0; p2_cart := cart;
     p2_instructions := ∅; p2_trace := [] |}.

(** The address of an entry of the second pass's trace. *)
Definition trace_addr (e : tryte * tryte * option tryte) : tryte := fst (fst e).

(* ------------------------------------------------------------------ *)
(** ** [assemble] over a heap of JS objects *)

(** The objects [assemble] allocates: the [Memory] [cart], the label [Map]
    and the [instructions] array. *)
Inductive obj :=
| OMem (m : Memory)
| OLabels (l : gmap string tryte)
| OInstrs (is : gmap Z InstructionLabeled).

(** The JS heap: a list of cells, addressed by position; [new] appends. *)
Abbreviation heap := (list obj) (only parsing).

Definition alloc (h : heap) (o : obj) : heap * nat := (h ++ [o], length h).

(** The value [assemble] returns, with its objects given by heap location. *)
Record AsmResult := {
  r_mem : nat;
  r_labels : nat;
  r_instrs : nat;
  r_warnings : list string
}.

(** [assemble(input)] run against the heap [h].  [new Memory()] and
    [new Map()] allocate two cells; the passes read their initial contents
    from those cells and, on success, the mutated contents are written back
    and the [instructions] array is allocated.  On a throw the partially
    mutated objects are unreachable, so the cells keep their initial
    contents.  Nothing outside the cells it allocates is read or written. *)
Definition assemble_in (h : heap) (input : string) : heap * res AsmResult :=
  let lines := preprocess input in
  let '(h1, lm) := alloc h (OMem (Memory_new None)) in
  let '(h2, ll) := alloc h1 (OLabels ∅) in
  match h2 !! lm, h2 !! ll with
  | Some (OMem cart), Some (OLabels labels0) =>
      match assemble_lines lines cart labels0 with
      | Ok a =>
          let '(h3, li) := alloc h2 (OInstrs (instructions a)) in
          (<[lm := OMem (mem a)]> (<[ll := OLabels (labels a)]> h3),
           Ok {| r_mem := lm; r_labels := ll; r_instrs := li;
                 r_warnings := warnings a |})
      | Throw e => (h2, Throw e)
      end
  | _, _ => (h2, Throw TypeError)
  end.

(* ------------------------------------------------------------------ *)
(** ** Memories reachable through the [Memory] class *)

(** The memories a client can build: [new Memory(size)], then [store]s of
    nine-trit trytes or of numbers. *)
Inductive Reachable : Memory -> Prop :=
| reach_new (size : option Z) : Reachable (Memory_new size)
| reach_store (m m' : Memory) (v a : tn) :
    Reachable m -> wf_tn v -> store m v a = Ok m' -> Reachable m'.

(* ------------------------------------------------------------------ *)
(** ** Further parts of assemble.ts *)

(** [list.join(sep)]. *)
Fixpoint join (sep : string) (l : list string) : string :=
  match l with
  | [] => EmptyString
  | s :: rest =>
      match rest with
      | [] => s
      | _ :: _ => (s ++ sep ++ join sep rest)%string
      end
  end.

(** The [ImmReg] tagged union. *)
Inductive ImmReg :=
| IRImmediate (data : tryte)
| IRRegister (data : tryte).

(** [parseImmRegOperand(operand)]: an immediate first, then a register (the
    opposite order to [unionParseYZ]); no caller uses it. *)
Definition parseImmRegOperand (operand : option string) : option ImmReg :=
  match parseImmediateOperand operand with
  | Some immediate => Some (IRImmediate immediate)
  | None =>
      match parseRegisterOperand operand with
      | Some register => Some (IRRegister register)
      | None => None
      end
  end.

(** The words an instruction line encodes to: [data[0]], then [data[1]]
    if there is one; nothing for a label line. *)
Definition line_words (L : gmap string tryte) (line : string) : list tryte :=
  if is_label_line line then [] else
  match parseInstructionParts line with
  | [] => []
  | mnemonic :: operands =>
      match parseInstruction mnemonic operands with
      | Ok (instruction, _) =>
          match assembleInstruction instruction L with
          | Ok (d0, Some d1) => [d0; d1]
          | Ok (d0, None) => [d0]
          | Throw _ => []
          end
      | Throw _ => []
      end
  end.

(** The words of a whole program, in order. *)
Definition encoded_words (L : gmap string tryte) (lines : list string) : list tryte :=
  flat_map (line_words L) lines.

(** The [block] index of the [k]-th word of the program image: the cell of
    address [wrap k]. *)
Definition cell (k : nat) : nat := Z.to_nat (wrap (Z.of_nat k) + 9841).

(** The memory holds the words [ws] at the cells of addresses [wrap 0],
    [wrap 1], ..., and zero in the cells after them. *)
Definition image_inv (m : Memory) (ws : list tryte) : Prop :=
  (length (block m) = Z.to_nat TRYTE_NUM_VALUES)%nat /\
  (forall k w, ws !! k = Some w -> block m !! cell k = Some (t2n_word w)) /\
  (forall k, (length ws <= k < Z.to_nat TRYTE_NUM_VALUES)%nat -> block m !! cell k = Some 0).

(** The [console.warn] lines pass 1 prints: one for each label line whose
    name an earlier label line (or [seen]) already declared. *)
Fixpoint redeclarations (seen : list string) (lines : list string) : list string :=
  match lines with
  | [] => []
  | l :: ls =>
      if is_label_line l then
        (if existsb (String.eqb (substr1 l)) seen
         then [("label redeclared: " ++ substr1 l)%string] else [])
        ++ redeclarations (substr1 l :: seen) ls
      else redeclarations seen ls
  end.

(** The value of [c] as a digit of radix up to 36, as [parseInt] reads it. *)
Definition digit_value (c : ascii) : option Z :=
  let n := Z.of_nat (nat_of_ascii c) in
  if (48 <=? n) && (n <=? 57) then Some (n - 48)
  else if (97 <=? n) && (n <=? 122) then Some (n - 87)
  else if (65 <=? n) && (n <=? 90) then Some (n - 55)
  else None.

(** The longest prefix of radix-[radix] digits, accumulated into [acc];
    [None] if there is none. *)
Fixpoint digits_prefix (radix : Z) (s : string) (acc : Z) (any : bool) : option Z :=
  match s with
  | EmptyString => if any then Some acc else None
  | String c s' =>
      match digit_value c with
      | Some d =>
          if d <? radix then digits_prefix radix s' (acc * radix + d) true
          else if any then Some acc else None
      | None => if any then Some acc else None
      end
  end.

(** JavaScript's [parseInt(s)] with no radix argument: leading white space
    skipped, an optional sign, radix 16 after a [0x] or [0X] prefix and 10
    otherwise, the longest prefix of digits; [None] is [NaN].  [-0] is
    taken as [0]: its only uses below compare it with 0 and 11 and add to
    it, where the two agree. *)
Definition parseInt (s : string) : option Z :=
  let s1 := trim_start s in
  let '(sign, s2) :=
    match s1 with
    | String "-"%char r => (-1, r)
    | String "+"%char r => (1, r)
    | _ => (1, s1)
    end in
  let '(radix, s3) :=
    match s2 with
    | String "0"%char (String c r) =>
        if Ascii.eqb c "x"%char || Ascii.eqb c "X"%char then (16, r) else (10, s2)
    | _ => (10, s2)
    end in
  option_map (fun v => sign * v) (digits_prefix radix s3 0 false).

(** [s[i] == c]; [s[i]] is [undefined] past the end. *)
Definition char_is (o : option ascii) (c : ascii) : bool :=
  match o with
  | Some d => Ascii.eqb d c
  | None => false
  end.

(** The [parseRegister] closure of [assembleOperandStr]. *)
Definition parseRegister (operand : string) : res Z :=
  match parseInt (substr1 operand) with
  | Some register =>
      if (register <? 0) || (11 <? register)
      then Throw (Error ("Unknown register: " ++ operand))
      else Ok register
  | None => Throw (Error ("Unknown register: " ++ operand))
  end.

(** [assembleOperandStr(operand, labels)] of assemble.ts, with the
    [LabelMap] of numbers; no caller uses it. *)
Definition assembleOperandStr (operand : string) (labels : gmap string Z)
  : res (tryte * option tryte) :=
  if char_is (String.get 0 operand) "r"%char then
    register ← parseRegister operand;
    t ← n2t (register + 1);
    Ok (t, None)
  else if char_is (String.get 0 operand) "."%char then
    match labels !! substr1 operand with
    | None => Throw (Error ("Undeclared ROM label: " ++ substr1 operand))
    | Some addr =>
        op ← n2t (-13);
        a ← n2t addr;
        Ok (op, Some a)
    end
  else if char_is (String.get 0 operand) "*"%char then
    if char_is (String.get 1 operand) "r"%char then
      register ← parseRegister (substr1 operand);
      t ← n2t (register - 11);
      Ok (t, None)
    else if char_is (String.get 2 operand) "."%char then
      Throw (Error ("ROM label not allowed here: " ++ operand))
    else
      op ← n2t (-12);
      a ← s2t (substr1 operand);
      Ok (op, Some a)
  else
    op ← n2t (-13);
    a ← s2t operand;
    Ok (op, Some a).

(** A decimal digit. *)
Definition is_decimal (c : ascii) : bool :=
  (48 <=? nat_of_ascii c)%nat && (nat_of_ascii c <=? 57)%nat.

(** A string of JavaScript white space. *)
Definition js_blank (w : string) : Prop :=
  Forall (fun c => is_js_space c = true) (list_ascii_of_string w).

(* ================================================================== *)
(** * Proofs *)

(** ** The codec *)

Lemma t2n_word_snoc (l : tryte) (d : trit) :
  t2n_word (l ++ [d]) = 3 * t2n_word l + trit_val d.
Proof. unfold t2n_word. rewrite fold_left_app. reflexivity. Qed.

Lemma trit_val_bound (d : trit) : -1 <= trit_val d <= 1.
Proof. destruct d; simpl; lia. Qed.

Lemma trit_of_Z_val (d : trit) : trit_of_Z (trit_val d) = d.
Proof. destruct d; reflexivity. Qed.

Lemma trit_val_of_Z (r : Z) : -1 <= r <= 1 -> trit_val (trit_of_Z r) = r.
Proof.
  intros Hr. unfold trit_of_Z.
  destruct (Z.ltb_spec r 0); [simpl; lia |].
  destruct (Z.eqb_spec r 0); simpl; lia.
Qed.

Lemma trit_bound_nonneg (k : nat) : 0 <= trit_bound k.
Proof. induction k; simpl; lia. Qed.

Lemma t2n_word_bound (l : tryte) :
  - trit_bound (length l) <= t2n_word l <= trit_bound (length l).
Proof.
  induction l as [|d l IH] using rev_ind; [unfold t2n_word; simpl; lia |].
  rewrite t2n_word_snoc, length_app, Nat.add_1_r. simpl trit_bound.
  pose proof (trit_val_bound d). lia.
Qed.

Lemma digits_length (k : nat) (n : Z) : length (digits k n) = k.
Proof.
  revert n. induction k as [|k IH]; intros n; [reflexivity |].
  simpl. rewrite length_app, IH. simpl. lia.
Qed.

(** The digit extracted from [3 * v + d] is [d], the rest is [v]. *)
Lemma balanced_rem (v : Z) (d : trit) :
  (3 * v + trit_val d + 1) mod 3 - 1 = trit_val d.
Proof.
  replace (3 * v + trit_val d + 1) with ((trit_val d + 1) + v * 3) by lia.
  rewrite Z_mod_plus_full. pose proof (trit_val_bound d).
  rewrite Z.mod_small; lia.
Qed.

Lemma digits_t2n_word (l : tryte) : digits (length l) (t2n_word l) = l.
Proof.
  induction l as [|d l IH] using rev_ind; [reflexivity |].
  rewrite length_app, Nat.add_1_r, t2n_word_snoc. simpl digits.
  rewrite balanced_rem, trit_of_Z_val.
  replace (3 * t2n_word l + trit_val d - trit_val d) with (t2n_word l * 3) by lia.
  rewrite Z.div_mul by lia. rewrite IH. reflexivity.
Qed.

Lemma t2n_word_digits (k : nat) (n : Z) :
  - trit_bound k <= n <= trit_bound k -> t2n_word (digits k n) = n.
Proof.
  revert n. induction k as [|k IH]; intros n Hn; [unfold t2n_word; simpl in *; lia |].
  simpl digits. simpl trit_bound in Hn.
  pose proof (Z.div_mod (n + 1) 3 ltac:(lia)) as Hdm.
  pose proof (Z.mod_pos_bound (n + 1) 3 ltac:(lia)) as Hb.
  set (q := (n + 1) / 3) in *. set (b := (n + 1) mod 3) in *.
  replace (n - (b - 1)) with (q * 3) by lia.
  rewrite Z.div_mul by lia.
  rewrite t2n_word_snoc, trit_val_of_Z by lia.
  rewrite IH by lia. lia.
Qed.

Lemma trit_bound_9 : trit_bound 9 = 9841.
Proof. reflexivity. Qed.

Lemma in_word_range_spec (n : Z) :
  in_word_range n = true <-> -9841 <= n <= 9841.
Proof. unfold in_word_range. rewrite andb_true_iff, !Z.leb_le. tauto. Qed.

Lemma word_range (w : tryte) :
  length w = 9%nat -> -9841 <= t2n_word w <= 9841.
Proof. intros H. pose proof (t2n_word_bound w). rewrite H in *. exact H0. Qed.

Lemma n2t_ok (n : Z) :
  -9841 <= n <= 9841 -> n2t n = Ok (digits 9 n).
Proof.
  intros H. unfold n2t. apply in_word_range_spec in H. rewrite H. reflexivity.
Qed.

Lemma n2t_t2n_word (w : tryte) : length w = 9%nat -> n2t (t2n_word w) = Ok w.
Proof.
  intros H. rewrite n2t_ok by (apply word_range; exact H).
  rewrite <- H at 1. rewrite digits_t2n_word. reflexivity.
Qed.

Lemma t2n_TNum (k : Z) :
  t2n (TNum k) = if in_word_range k then Ok k else Throw RangeError.
Proof.
  unfold t2n, n2t. destruct (in_word_range k) eqn:E; [| reflexivity].
  cbv [mbind res_mbind res_bind]. apply in_word_range_spec in E.
  rewrite t2n_word_digits by (rewrite trit_bound_9; lia). reflexivity.
Qed.

Lemma t2n_range (a : tn) (n : Z) :
  wf_tn a -> t2n a = Ok n -> -9841 <= n <= 9841 /\ n = tn_value a.
Proof.
  destruct a as [w | k]; intros Hwf Ht.
  - simpl in Hwf, Ht. inversion Ht; subst. split; [apply word_range; exact Hwf | reflexivity].
  - rewrite t2n_TNum in Ht. destruct (in_word_range k) eqn:E; [| discriminate].
    apply in_word_range_spec in E. inversion Ht; subst. simpl. split; [lia | reflexivity].
Qed.

Lemma to_int32_small (v : Z) : -9841 <= v <= 9841 -> to_int32 v = v.
Proof.
  intros Hv. unfold to_int32.
  destruct (Z.leb_spec 0 v).
  - rewrite Z.mod_small by lia. destruct (Z.leb_spec (2 ^ 31) v); lia.
  - rewrite <- (Z.mod_unique_pos v (2 ^ 32) (-1) (v + 2 ^ 32)) by lia.
    destruct (Z.leb_spec (2 ^ 31) (v + 2 ^ 32)); lia.
Qed.

(** ** Memory *)

Lemma index_of_range (n : Z) :
  -9841 <= n <= 9841 -> (Z.to_nat (n + 9841) < Z.to_nat TRYTE_NUM_VALUES)%nat.
Proof. unfold TRYTE_NUM_VALUES. lia. Qed.

(** C10: whatever the [size] argument, [new Memory(size)] has exactly
    19683 cells, all zero, the same as [new Memory()]. *)
Theorem Memory_new_size_ignored (size : option Z) :
  Memory_new size = Memory_new None /\
  Z.of_nat (length (block (Memory_new size))) = 19683 /\
  Forall (fun c => c = 0) (block (Memory_new size)).
Proof.
  split; [reflexivity |]. split.
  - unfold Memory_new. cbn [block]. rewrite repeat_length, Z2Nat.id; [reflexivity |].
    unfold TRYTE_NUM_VALUES. lia.
  - unfold Memory_new. cbn [block]. apply Forall_forall. intros c Hc.
    apply list_elem_of_In, repeat_spec in Hc. exact Hc.
Qed.

(** C4: [load] and [store] at an address whose value lies outside
    [-9841, 9841] fail with [RangeError]; a tryte address (nine trits) is
    never out of range. *)
Theorem Memory_out_of_range_fails (m : Memory) (a : tn) :
  wf_tn a -> ~ (-9841 <= tn_value a <= 9841) ->
  load m a = Throw RangeError /\ forall v, store m v a = Throw RangeError.
Proof.
  intros Hwf Hout. destruct a as [w | k].
  - exfalso. apply Hout. simpl. apply word_range. exact Hwf.
  - simpl in Hout.
    assert (E : in_word_range k = false).
    { destruct (in_word_range k) eqn:E; [| reflexivity].
      apply in_word_range_spec in E. contradiction. }
    split.
    + unfold load. rewrite t2n_TNum, E. reflexivity.
    + intros v. unfold store. rewrite t2n_TNum, E. reflexivity.
Qed.

Lemma Memory_out_of_range_fails_witness :
  (wf_tn (TNum 10000) /\ ~ (-9841 <= tn_value (TNum 10000) <= 9841)) /\
  (load (Memory_new None) (TNum 10000) = Throw RangeError /\
   forall v, store (Memory_new None) v (TNum 10000) = Throw RangeError).
Proof.
  split; [split; [exact I | simpl; lia] |].
  apply (Memory_out_of_range_fails (Memory_new None) (TNum 10000)); [exact I | simpl; lia].
Defined.

(** C5: storing a word at an in-range address and loading it back returns
    the word, and every other in-range address loads what it did before. *)
Theorem Memory_store_load (m : Memory) (a b : tn) (v : tryte) (ia ib : Z) :
  length (block m) = Z.to_nat TRYTE_NUM_VALUES ->
  wf_tn a -> wf_tn b -> t2n a = Ok ia -> t2n b = Ok ib -> ia <> ib ->
  length v = 9%nat ->
  exists m', store m (TTryte v) a = Ok m' /\ load m' a = Ok v /\
             load m' b = load m b.
Proof.
  intros Hlen Hwa Hwb Ha Hb Hne Hv.
  destruct (t2n_range a ia Hwa Ha) as [Hra _].
  destruct (t2n_range b ib Hwb Hb) as [Hrb _].
  pose proof (word_range v Hv) as Hrv.
  exists {| block := i32_set (block m) (ia + 9841) (t2n_word v) |}.
  split; [unfold store; rewrite Ha; reflexivity |]. split.
  - unfold load. rewrite Ha. cbv [mbind res_mbind res_bind]. cbn [block].
    unfold i32_get, i32_set.
    destruct (Z.ltb_spec (ia + 9841) 0); [lia |].
    rewrite list_lookup_insert_eq
      by (rewrite Hlen; apply index_of_range; exact Hra).
    rewrite to_int32_small by exact Hrv. apply n2t_t2n_word. exact Hv.
  - unfold load. rewrite Hb. cbv [mbind res_mbind res_bind]. cbn [block].
    unfold i32_get, i32_set.
    destruct (Z.ltb_spec (ia + 9841) 0); [lia |].
    destruct (Z.ltb_spec (ib + 9841) 0); [lia |].
    rewrite list_lookup_insert_ne by lia. reflexivity.
Qed.

Lemma Memory_store_load_witness :
  exists m',
    store (Memory_new None) (TTryte (n2t_const 7)) (TNum 5) = Ok m' /\
    load m' (TNum 5) = Ok (n2t_const 7) /\
    load m' (TNum (-3)) = load (Memory_new None) (TNum (-3)).
Proof.
  apply (Memory_store_load (Memory_new None) (TNum 5) (TNum (-3)) (n2t_const 7) 5 (-3));
    try reflexivity; try exact I; lia.
Defined.

(** ** The parser *)

Lemma n2t_const_val (k : Z) : -9841 <= k <= 9841 -> t2n_word (n2t_const k) = k.
Proof. intros H. unfold n2t_const. apply t2n_word_digits. rewrite trit_bound_9. exact H. Qed.

Lemma n2t_const_length (k : Z) : length (n2t_const k) = 9%nat.
Proof. apply digits_length. Qed.

(** Case analysis on a chain of [if String.eqb m "..."] in the goal. *)
Ltac split_mnemonic :=
  repeat match goal with
  | |- context [String.eqb ?m ?lit] =>
      is_var m; destruct (String.eqb_spec m lit) as [-> | ?]
  end.

Lemma isShort_false (v : tryte) : isShort v = false.
Proof.
  unfold isShort. destruct (Z.ltb_spec 4 (t2n_word v)); [| reflexivity].
  destruct (Z.ltb_spec (t2n_word v) (-4)); [lia | reflexivity].
Qed.

Lemma unionParseYZ_opcode (opc xv : tryte) (o : option string) (b : bool)
  (i : InstructionLabeled) :
  unionParseYZ opc xv o b = Some i -> opcode i = opc.
Proof.
  unfold unionParseYZ. intros H.
  repeat match type of H with
  | context [match ?e with _ => _ end] => destruct e
  end; inversion H; reflexivity.
Qed.

Lemma parse_reg_yz_opcode (opc : Z) (m1 m2 : string) (ops : list string)
  (i : InstructionLabeled) (rest : list string) :
  parse_reg_yz opc m1 m2 ops = Ok (i, rest) -> opcode i = n2t_const opc.
Proof.
  unfold parse_reg_yz. destruct (shift ops) as [o1 ops1].
  destruct (parseRegisterOperand o1) as [xv |]; [| discriminate]. simpl.
  destruct (shift ops1) as [o2 ops2].
  destruct (unionParseYZ (n2t_const opc) xv o2 false) as [j |] eqn:E; [| discriminate].
  simpl. intros H. inversion H; subst. eapply unionParseYZ_opcode. exact E.
Qed.

(** C1: [isShort] is [n > 4 && n < -4], which no integer satisfies, so an
    immediate of magnitude at most 4 (here [oooooooo+], value 1) still gets
    WORD_IMMEDIATE and takes two words: the NOP after it is at address 2. *)
Theorem isShort_small_immediate_is_word :
  (forall v, isShort v = false) /\
  parseInstruction "MOV" ["r0"; " oooooooo+"] =
    Ok ({| opcode := n2t_const 0; addressingMode := WORD_IMMEDIATE;
           x := n2t_const (-4); y := n2t_const 0;
           z := Some (ZTryte (n2t_const 1)) |}, []) /\
  match pass1 ["MOV r0, oooooooo+"; "NOP"]
          {| p1_address := n2t_const 0; p1_labels := ∅;
             p1_warnings := []; p1_trace := [] |} with
  | Ok st => p1_trace st = [n2t_const 0; n2t_const 2]
  | Throw _ => False
  end.
Proof.
  split; [exact isShort_false |]. split; vm_compute; reflexivity.
Qed.

Lemma parseInstruction_opcode (mn : string) (ops : list string)
  (i : InstructionLabeled) (rest : list string) :
  parseInstruction mn ops = Ok (i, rest) ->
  parser_opcode_table (toUpperCase mn) = Some (t2n_word (opcode i)).
Proof.
  unfold parseInstruction, parser_opcode_table.
  generalize (toUpperCase mn) as m. intros m.
  split_mnemonic; cbv beta iota; intros H;
    first
      [ discriminate H
      | injection H as <- <-; cbn [opcode]; rewrite n2t_const_val by lia; reflexivity
      | apply parse_reg_yz_opcode in H; rewrite H, n2t_const_val by lia; reflexivity
      | idtac ].
  (* JMP *)
  destruct (shift ops) as [o ops1].
  destruct (unionParseYZ (n2t_const 36) (n2t_const 0) o true) as [j |] eqn:E;
    [| discriminate H].
  cbv [expect mbind res_mbind res_bind] in H. injection H as <- <-.
  rewrite (unionParseYZ_opcode _ _ _ _ _ E), n2t_const_val by lia. reflexivity.
Qed.

Lemma assembleOpcodeStr_spec (str : string) (t : tryte) :
  assembleOpcodeStr str = Ok t ->
  spec_opcode_table (toUpperCase str) = Some (t2n_word t) /\ -13 <= t2n_word t <= 9.
Proof.
  unfold assembleOpcodeStr.
  generalize (toUpperCase str) as m. intros m.
  split_mnemonic; cbv beta iota; intros H;
    first
      [ discriminate H
      | injection H as <-; rewrite n2t_const_val by lia; split; [reflexivity | lia] ].
Qed.

(** C2 (as the spec states it): every opcode the assembler assigns follows
    the spec's table and lies in [-13, 9].  False: [ADD r0, r1] gets
    opcode -39. *)
Lemma opcode_table_counterexample :
  ~ (forall mn ops i rest, parseInstruction mn ops = Ok (i, rest) ->
       spec_opcode_table (toUpperCase mn) = Some (t2n_word (opcode i)) /\
       -13 <= t2n_word (opcode i) <= 9).
Proof.
  intros H.
  destruct (H "ADD" ["r0"; " r1"] _ _ eq_refl) as [Htab _].
  vm_compute in Htab. discriminate Htab.
Qed.

(** C2 (amended): [parseInstruction] assigns NOP=0, MOV=0, LDA=1, STA=2,
    JMP=36, ADD=-39, MUL=-37, DIV=-36; the spec's table, all within
    [-13, 9], is what the unused [assembleOpcodeStr] returns. *)
Theorem parser_opcodes (mn : string) (ops : list string)
  (i : InstructionLabeled) (rest : list string) :
  parseInstruction mn ops = Ok (i, rest) ->
  parser_opcode_table (toUpperCase mn) = Some (t2n_word (opcode i)) /\
  (forall str t, assembleOpcodeStr str = Ok t ->
     spec_opcode_table (toUpperCase str) = Some (t2n_word t) /\ -13 <= t2n_word t <= 9).
Proof.
  intros H. split; [exact (parseInstruction_opcode mn ops i rest H) |].
  exact assembleOpcodeStr_spec.
Qed.

Lemma parser_opcodes_witness :
  exists i, parseInstruction "ADD" ["r0"; " r1"] = Ok (i, []) /\
    parser_opcode_table "ADD" = Some (t2n_word (opcode i)) /\ t2n_word (opcode i) = -39.
Proof.
  eexists. split; [vm_compute; reflexivity |].
  split; [| vm_compute; reflexivity].
  apply (parser_opcodes "ADD" ["r0"; " r1"] _ [] ltac:(vm_compute; reflexivity)).
Defined.

Lemma unknown_operation (mn : string) (ops : list string) :
  supported_mnemonic (toUpperCase mn) = false ->
  parseInstruction mn ops = Throw (Error ("unknown operation '" ++ mn ++ "'")).
Proof.
  unfold supported_mnemonic, parseInstruction. cbn [existsb].
  generalize (toUpperCase mn) as m. intros m.
  split_mnemonic; cbn [orb]; intros Hs; try discriminate Hs; reflexivity.
Qed.

Lemma parse_reg_yz_op1 (opc : Z) (m1 m2 : string) (ops : list string) :
  parseRegisterOperand (hd_error ops) = None ->
  parse_reg_yz opc m1 m2 ops = Throw (Error m1).
Proof.
  unfold parse_reg_yz. destruct ops as [| o ops]; simpl; intros H; [reflexivity |].
  rewrite H. reflexivity.
Qed.

Lemma operand1_error (mn : string) (ops : list string) :
  two_operand_mnemonic (toUpperCase mn) = true ->
  parseRegisterOperand (hd_error ops) = None ->
  exists tail, parseInstruction mn ops = Throw (Error (toUpperCase mn ++ ": operand 1" ++ tail)).
Proof.
  intros Htwo Hreg. unfold parseInstruction.
  remember (toUpperCase mn) as m eqn:Hm. clear Hm.
  unfold two_operand_mnemonic in Htwo. cbn [existsb] in Htwo. revert Htwo.
  split_mnemonic; cbn [orb]; intros Htwo; try discriminate Htwo;
    eexists; rewrite parse_reg_yz_op1 by exact Hreg; reflexivity.
Qed.

Lemma s2t_zero : s2t "ooooooooo" = Ok (n2t_const 0).
Proof. vm_compute. reflexivity. Qed.

Lemma pass1_app (l1 l2 : list string) (st : P1) :
  pass1 (l1 ++ l2) st = res_bind (pass1 l1 st) (pass1 l2).
Proof.
  revert st. induction l1 as [| l l1 IH]; intros st; [reflexivity |].
  simpl. cbv [mbind res_mbind]. destruct (pass1_line st l); [apply IH | reflexivity].
Qed.

Lemma pass2_app (labs : gmap string tryte) (l1 l2 : list string) (st : P2) :
  pass2 labs (l1 ++ l2) st = res_bind (pass2 labs l1 st) (pass2 labs l2).
Proof.
  revert st. induction l1 as [| l l1 IH]; intros st; [reflexivity |].
  simpl. cbv [mbind res_mbind]. destruct (pass2_line labs st l); [apply IH | reflexivity].
Qed.

Lemma line_parses_pass1 (line : string) (st : P1) :
  line_parses line = true -> exists st', pass1_line st line = Ok st'.
Proof.
  unfold line_parses, pass1_line. destruct (is_label_line line); simpl.
  - intros _. eexists. reflexivity.
  - destruct (parseInstructionParts line) as [| mn ops]; [discriminate |].
    destruct (parseInstruction mn ops) as [[i [| r rest]] | e]; try discriminate.
    intros _. eexists. reflexivity.
Qed.

Lemma lines_parse_pass1 (ls : list string) (st : P1) :
  forallb line_parses ls = true -> exists st', pass1 ls st = Ok st'.
Proof.
  revert st. induction ls as [| l ls IH]; intros st H; [eexists; reflexivity |].
  simpl in H. apply andb_true_iff in H as [Hl Hls].
  destruct (line_parses_pass1 l st Hl) as [st1 E]. simpl. rewrite E. apply IH. exact Hls.
Qed.

Lemma pass1_line_parse_error (line mn : string) (ops : list string) (e : exn) (st : P1) :
  is_label_line line = false -> parseInstructionParts line = mn :: ops ->
  parseInstruction mn ops = Throw e -> pass1_line st line = Throw e.
Proof. intros Hl Hp He. unfold pass1_line. rewrite Hl, Hp. simpl. rewrite He. reflexivity. Qed.

(** A line on which pass 1 throws [e] whatever its state makes assembly fail,
    with [e] when it is the first line that does not parse. *)
Lemma assemble_fails_at (pre post : list string) (line : string) (e : exn)
  (cart : Memory) (labels0 : gmap string tryte) :
  (forall st, pass1_line st line = Throw e) ->
  (exists e', assemble_lines (pre ++ line :: post) cart labels0 = Throw e') /\
  (forallb line_parses pre = true ->
   assemble_lines (pre ++ line :: post) cart labels0 = Throw e).
Proof.
  intros Hline. unfold assemble_lines. rewrite s2t_zero. cbv [mbind res_mbind res_bind].
  rewrite pass1_app. split.
  - destruct (pass1 pre _) as [st1 | e1]; simpl.
    + rewrite Hline. eexists. reflexivity.
    + eexists. reflexivity.
  - intros Hpre.
    destruct (lines_parse_pass1 pre {| p1_address := n2t_const 0; p1_labels := labels0;
                                       p1_warnings := []; p1_trace := [] |} Hpre) as [st1 E].
    rewrite E. simpl. rewrite Hline. reflexivity.
Qed.

(** C8: a line whose mnemonic [parseInstruction] has no case for makes
    assembly fail; when it is the first line that does not parse, the error
    is [unknown operation '<mnemonic>'].  Likewise MOV, ADD, MUL, DIV, STA or
    LDA whose first operand is not a register token: the error is
    [<MNEMONIC>: operand 1 ...]. *)
Theorem unknown_mnemonic_or_register_fails (pre post : list string)
  (line mnemonic : string) (operands : list string)
  (cart : Memory) (labels0 : gmap string tryte) :
  is_label_line line = false ->
  parseInstructionParts line = mnemonic :: operands ->
  (supported_mnemonic (toUpperCase mnemonic) = false ->
     (exists e, assemble_lines (pre ++ line :: post) cart labels0 = Throw e) /\
     (forallb line_parses pre = true ->
        assemble_lines (pre ++ line :: post) cart labels0 =
          Throw (Error ("unknown operation '" ++ mnemonic ++ "'")))) /\
  (two_operand_mnemonic (toUpperCase mnemonic) = true ->
   parseRegisterOperand (hd_error operands) = None ->
     (exists e, assemble_lines (pre ++ line :: post) cart labels0 = Throw e) /\
     (forallb line_parses pre = true ->
        exists tail, assemble_lines (pre ++ line :: post) cart labels0 =
          Throw (Error (toUpperCase mnemonic ++ ": operand 1" ++ tail)))).
Proof.
  intros Hl Hp. split.
  - intros Hs. apply assemble_fails_at. intros st.
    eapply pass1_line_parse_error; [exact Hl | exact Hp |].
    apply unknown_operation. exact Hs.
  - intros Htwo Hreg. destruct (operand1_error mnemonic operands Htwo Hreg) as [tail E].
    destruct (assemble_fails_at pre post line _ cart labels0
                (fun st => pass1_line_parse_error line mnemonic operands _ st Hl Hp E))
      as [Hf Hfirst].
    split; [exact Hf |]. intros Hpre. exists tail. apply Hfirst. exact Hpre.
Qed.

Lemma unknown_mnemonic_or_register_fails_witness :
  assemble_lines (["NOP"] ++ "FOO r0, r1" :: []) (Memory_new None) ∅ =
    Throw (Error "unknown operation 'FOO'") /\
  exists tail, assemble_lines (["NOP"] ++ "MOV r9, r0" :: []) (Memory_new None) ∅ =
    Throw (Error ("MOV" ++ ": operand 1" ++ tail)).
Proof.
  split.
  - apply (proj1 (unknown_mnemonic_or_register_fails ["NOP"] [] "FOO r0, r1" "FOO" ["r0"; " r1"]
            (Memory_new None) ∅ eq_refl ltac:(vm_compute; reflexivity))
            ltac:(vm_compute; reflexivity)).
    vm_compute. reflexivity.
  - apply (proj2 (unknown_mnemonic_or_register_fails ["NOP"] [] "MOV r9, r0" "MOV" ["r9"; " r0"]
            (Memory_new None) ∅ eq_refl ltac:(vm_compute; reflexivity))
            ltac:(vm_compute; reflexivity) ltac:(vm_compute; reflexivity)).
    vm_compute. reflexivity.
Defined.

(** ** Shape of parsed and encoded instructions *)

Lemma unionParseYZ_shape (opc xv : tryte) (o : option string) (b : bool)
  (i : InstructionLabeled) :
  unionParseYZ opc xv o b = Some i ->
  z_truthy (z i) = is_word_imm (addressingMode i) /\
  (z i = None \/ is_word_imm (addressingMode i) = true).
Proof.
  unfold unionParseYZ. intros H.
  repeat match type of H with
  | context [match ?e with _ => _ end] => destruct e eqn:?
  end; inversion H; subst; simpl; auto.
Qed.

Lemma parseInstruction_shape (mn : string) (ops : list string)
  (i : InstructionLabeled) (rest : list string) :
  parseInstruction mn ops = Ok (i, rest) ->
  z_truthy (z i) = is_word_imm (addressingMode i).
Proof.
  unfold parseInstruction. generalize (toUpperCase mn) as m. intros m.
  split_mnemonic; cbv beta iota; intros H; try discriminate H;
    first
      [ injection H as <- <-; reflexivity
      | unfold parse_reg_yz in H; destruct (shift ops) as [o1 ops1];
        destruct (parseRegisterOperand o1); [| discriminate H];
        cbv [expect mbind res_mbind res_bind] in H;
        destruct (shift ops1) as [o2 ops2];
        destruct (unionParseYZ _ _ o2 false) eqn:E; [| discriminate H];
        injection H as <- <-; exact (proj1 (unionParseYZ_shape _ _ _ _ _ E))
      | destruct (shift ops) as [o ops1];
        destruct (unionParseYZ _ _ o true) eqn:E; [| discriminate H];
        cbv [expect mbind res_mbind res_bind] in H; injection H as <- <-;
        exact (proj1 (unionParseYZ_shape _ _ _ _ _ E)) ].
Qed.

Lemma assembleInstruction_shape (i : InstructionLabeled) (L : gmap string tryte)
  (d0 : tryte) (d1 : option tryte) :
  assembleInstruction i L = Ok (d0, d1) ->
  is_Some d1 <-> is_word_imm (addressingMode i) = true.
Proof.
  unfold assembleInstruction.
  destruct (_ && _ && _); [| discriminate].
  destruct (addressingMode i); simpl;
    try (intros H; injection H as _ <-; split; [intros [? ?]; discriminate | discriminate]).
  destruct (z i) as [[t | name] |]; [| destruct (L !! name) |]; intros H;
    try discriminate H; injection H as _ <-; split; auto; intros _; eexists; reflexivity.
Qed.

(** ** Two-pass agreement *)

Lemma pass_line_agree (L : gmap string tryte) (st1 st1' : P1) (st2 st2' : P2)
  (line : string) :
  p1_address st1 = p2_address st2 ->
  p1_trace st1 = map trace_addr (p2_trace st2) ->
  pass1_line st1 line = Ok st1' -> pass2_line L st2 line = Ok st2' ->
  p1_address st1' = p2_address st2' /\
  p1_trace st1' = map trace_addr (p2_trace st2').
Proof.
  intros Ha Ht H1 H2. unfold pass1_line, pass2_line in *.
  destruct (is_label_line line); simpl in H1, H2.
  - injection H1 as <-. injection H2 as <-. simpl. auto.
  - destruct (parseInstructionParts line) as [| mn ops]; [discriminate H1 |].
    destruct (parseInstruction mn ops) as [[i rest] | e] eqn:Ep; [| discriminate H1].
    cbv [mbind res_mbind res_bind] in H1, H2.
    destruct rest as [| r rest]; [| discriminate H1]. injection H1 as <-.
    pose proof (parseInstruction_shape _ _ _ _ Ep) as Hz.
    destruct (assembleInstruction i L) as [[d0 d1] | e] eqn:Ea; [| discriminate H2].
    pose proof (assembleInstruction_shape _ _ _ _ Ea) as Hd.
    destruct d1 as [w1 |].
    + injection H2 as <-.
      simpl. rewrite Hz. destruct Hd as [Hd _]. rewrite Hd by (eexists; reflexivity).
      rewrite Ha, Ht, map_app. auto.
    + injection H2 as <-. simpl. rewrite Hz.
      destruct (is_word_imm (addressingMode i)) eqn:Ew.
      * destruct Hd as [_ Hd]. destruct (Hd eq_refl). discriminate.
      * rewrite Ha, Ht, map_app. auto.
Qed.

Lemma passes_agree (L : gmap string tryte) (lines : list string) (st1 st1' : P1)
  (st2 st2' : P2) :
  p1_address st1 = p2_address st2 ->
  p1_trace st1 = map trace_addr (p2_trace st2) ->
  pass1 lines st1 = Ok st1' -> pass2 L lines st2 = Ok st2' ->
  p1_trace st1' = map trace_addr (p2_trace st2').
Proof.
  revert st1 st2. induction lines as [| l lines IH]; intros st1 st2 Ha Ht H1 H2.
  - simpl in H1, H2. injection H1 as <-. injection H2 as <-. exact Ht.
  - simpl in H1, H2. cbv [mbind res_mbind res_bind] in H1, H2.
    destruct (pass1_line st1 l) as [s1 |] eqn:E1; [| discriminate H1].
    destruct (pass2_line L st2 l) as [s2 |] eqn:E2; [| discriminate H2].
    destruct (pass_line_agree L st1 s1 st2 s2 l Ha Ht E1 E2) as [Ha' Ht'].
    exact (IH s1 s2 Ha' Ht' H1 H2).
Qed.

(** C3: when both passes succeed (the program assembles), the pass-1 cursor
    at the k-th instruction line is the address pass 2 stores that
    instruction's first word at, for every k. *)
Theorem two_pass_addresses_agree (lines : list string) (labels0 : gmap string tryte)
  (cart : Memory) (st1 : P1) (st2 : P2) :
  pass1 lines (p1_init labels0) = Ok st1 ->
  pass2 (p1_labels st1) lines (p2_init cart) = Ok st2 ->
  p1_trace st1 = map trace_addr (p2_trace st2).
Proof.
  intros H1 H2.
  exact (passes_agree _ lines (p1_init labels0) st1 (p2_init cart) st2 eq_refl eq_refl H1 H2).
Qed.

Lemma two_pass_addresses_agree_witness :
  match pass1 ["MOV r0, +oooooooo"; "JMP .end"; "ADD r1, r0"; ".end"; "NOP"]
          (p1_init ∅) with
  | Ok st1 =>
      match pass2 (p1_labels st1)
              ["MOV r0, +oooooooo"; "JMP .end"; "ADD r1, r0"; ".end"; "NOP"]
              (p2_init (Memory_new None)) with
      | Ok st2 => p1_trace st1 = map trace_addr (p2_trace st2)
      | Throw _ => False
      end
  | Throw _ => False
  end.
Proof.
  destruct (pass1 _ (p1_init ∅)) as [st1 | e] eqn:E1; [| vm_compute in E1; discriminate E1].
  destruct (pass2 _ _ (p2_init (Memory_new None))) as [st2 | e] eqn:E2.
  - exact (two_pass_addresses_agree _ ∅ (Memory_new None) st1 st2 E1 E2).
  - vm_compute in E1. injection E1 as <-. vm_compute in E2. discriminate E2.
Defined.

(** ** Valid programs assemble *)

Lemma assemble_lines_passes (lines : list string) (cart : Memory)
  (labels0 : gmap string tryte) :
  assemble_lines lines cart labels0 =
    res_bind (pass1 lines (p1_init labels0)) (fun st1 =>
    res_bind (pass2 (p1_labels st1) lines (p2_init cart)) (fun st2 =>
    Ok {| mem := p2_cart st2; labels := p1_labels st1;
          instructions := p2_instructions st2; warnings := p1_warnings st1 |})).
Proof. unfold assemble_lines. rewrite s2t_zero. reflexivity. Qed.

Lemma parseRegisterOperand_range (o : option string) (t : tryte) :
  parseRegisterOperand o = Some t -> Z.abs (t2n_word t) <= 4.
Proof.
  unfold parseRegisterOperand. destruct o as [s |]; [| discriminate].
  destruct (is_empty s); [discriminate |].
  generalize (toLowerCase (trim s)) as m. intros m.
  split_mnemonic; cbv beta iota; intros H; try discriminate H;
    injection H as <-; rewrite n2t_const_val by lia; lia.
Qed.

Lemma unionParseYZ_fields (opc xv : tryte) (o : option string) (b : bool)
  (i : InstructionLabeled) :
  unionParseYZ opc xv o b = Some i ->
  opcode i = opc /\ x i = xv /\ Z.abs (t2n_word (y i)) <= 4.
Proof.
  unfold unionParseYZ. intros H.
  destruct (parseRegisterOperand o) as [r |] eqn:Er.
  { injection H as <-. simpl. split; [reflexivity | split; [reflexivity |]].
    exact (parseRegisterOperand_range o r Er). }
  destruct (parseImmediateOperand o) as [t |].
  { rewrite isShort_false in H. injection H as <-. simpl.
    split; [reflexivity | split; [reflexivity |]]. rewrite n2t_const_val; lia. }
  destruct b; [| discriminate H].
  destruct (parseAddressOperand o) as [a |]; [| discriminate H].
  destruct (zval_truthy a); [| discriminate H]. injection H as <-. simpl.
  split; [reflexivity | split; [reflexivity |]]. rewrite n2t_const_val; lia.
Qed.

Lemma parser_opcode_table_range (m : string) (v : Z) :
  parser_opcode_table m = Some v -> Z.abs v <= 40.
Proof.
  unfold parser_opcode_table. split_mnemonic; cbv beta iota; intros H;
    try discriminate H; injection H as <-; lia.
Qed.

Lemma parseInstruction_fields (mn : string) (ops : list string)
  (i : InstructionLabeled) (rest : list string) :
  parseInstruction mn ops = Ok (i, rest) ->
  fits 4 (t2n_word (opcode i)) && fits 2 (t2n_word (x i)) && fits 2 (t2n_word (y i)) = true.
Proof.
  intros H. pose proof (parser_opcode_table_range _ _ (parseInstruction_opcode _ _ _ _ H)) as Hop.
  assert (Hxy : Z.abs (t2n_word (x i)) <= 4 /\ Z.abs (t2n_word (y i)) <= 4).
  { revert H. unfold parseInstruction. generalize (toUpperCase mn) as m. intros m.
    split_mnemonic; cbv beta iota; intros H; try discriminate H;
      first
        [ injection H as <- <-; simpl; rewrite n2t_const_val by lia; lia
        | unfold parse_reg_yz in H; destruct (shift ops) as [o1 ops1];
          destruct (parseRegisterOperand o1) as [xv |] eqn:Ex; [| discriminate H];
          cbv [expect mbind res_mbind res_bind] in H;
          destruct (shift ops1) as [o2 ops2];
          destruct (unionParseYZ _ _ o2 false) eqn:E; [| discriminate H];
          injection H as <- <-;
          destruct (unionParseYZ_fields _ _ _ _ _ E) as (_ & -> & Hy);
          split; [exact (parseRegisterOperand_range _ _ Ex) | exact Hy]
        | destruct (shift ops) as [o ops1];
          destruct (unionParseYZ _ _ o true) eqn:E; [| discriminate H];
          cbv [expect mbind res_mbind res_bind] in H; injection H as <- <-;
          destruct (unionParseYZ_fields _ _ _ _ _ E) as (_ & -> & Hy);
          split; [rewrite n2t_const_val; lia | exact Hy] ]. }
  unfold fits. simpl trit_bound.
  apply andb_true_iff; split; [apply andb_true_iff; split |]; apply Z.leb_le; lia.
Qed.

Lemma assembleInstruction_ok (mn : string) (ops : list string) (i : InstructionLabeled)
  (rest : list string) (L : gmap string tryte) :
  parseInstruction mn ops = Ok (i, rest) ->
  (forall n, z i = Some (ZLabel n) -> is_Some (L !! n)) ->
  exists d0 d1, assembleInstruction i L = Ok (d0, d1).
Proof.
  intros Hp HL. pose proof (parseInstruction_shape _ _ _ _ Hp) as Hz.
  unfold assembleInstruction. rewrite (parseInstruction_fields _ _ _ _ Hp).
  destruct (addressingMode i); try (do 2 eexists; reflexivity).
  destruct (z i) as [[t | n] |] eqn:Ez.
  - do 2 eexists; reflexivity.
  - destruct (HL n eq_refl) as [a Ha]. rewrite Ha. do 2 eexists; reflexivity.
  - discriminate Hz.
Qed.

Lemma pass1_line_cases (st st' : P1) (line : string) :
  pass1_line st line = Ok st' ->
  (is_label_line line = true /\
   p1_address st' = p1_address st /\
   p1_labels st' = <[substr1 line := p1_address st]> (p1_labels st) /\
   p1_warnings st' = p1_warnings st ++
     match p1_labels st !! substr1 line with
     | Some _ => [("label redeclared: " ++ substr1 line)%string]
     | None => []
     end) \/
  (is_label_line line = false /\ p1_labels st' = p1_labels st /\
   p1_warnings st' = p1_warnings st).
Proof.
  unfold pass1_line. destruct (is_label_line line) eqn:El; simpl; intros H.
  - left. injection H as <-. simpl. split; [reflexivity |]. split; [reflexivity |].
    split; [reflexivity |]. destruct (p1_labels st !! substr1 line); simpl;
      [reflexivity | rewrite app_nil_r; reflexivity].
  - right. destruct (parseInstructionParts line) as [| mn ops]; [discriminate H |].
    destruct (parseInstruction mn ops) as [[i [| r rest]] | e]; try discriminate H.
    injection H as <-. simpl. auto.
Qed.

Lemma pass1_warnings_extend (ls : list string) (st st' : P1) :
  pass1 ls st = Ok st' -> exists w, p1_warnings st' = p1_warnings st ++ w.
Proof.
  revert st. induction ls as [| l ls IH]; intros st H.
  - injection H as <-. exists []. rewrite app_nil_r. reflexivity.
  - simpl in H. cbv [mbind res_mbind res_bind] in H.
    destruct (pass1_line st l) as [s |] eqn:E; [| discriminate H].
    destruct (IH s H) as [w Hw]. rewrite Hw.
    destruct (pass1_line_cases _ _ _ E) as [(_ & _ & _ & ->) | (_ & _ & ->)].
    + eexists. rewrite <- app_assoc. reflexivity.
    + exists w. reflexivity.
Qed.

Lemma pass1_labels_mono (ls : list string) (st st' : P1) (n : string) :
  pass1 ls st = Ok st' -> is_Some (p1_labels st !! n) -> is_Some (p1_labels st' !! n).
Proof.
  revert st. induction ls as [| l ls IH]; intros st H Hn.
  - injection H as <-. exact Hn.
  - simpl in H. cbv [mbind res_mbind res_bind] in H.
    destruct (pass1_line st l) as [s |] eqn:E; [| discriminate H].
    apply (IH s H).
    destruct (pass1_line_cases _ _ _ E) as [(_ & _ & -> & _) | (_ & -> & _)]; [| exact Hn].
    destruct (decide (substr1 l = n)) as [<- |]; [rewrite lookup_insert_eq; eexists; reflexivity |].
    rewrite lookup_insert_ne by congruence. exact Hn.
Qed.

Lemma declared_labels_cons (l : string) (ls : list string) :
  declared_labels (l :: ls) =
  (if is_label_line l then [substr1 l] else []) ++ declared_labels ls.
Proof.
  unfold declared_labels. rewrite filter_cons.
  destruct (decide _) as [Hd | Hd]; destruct (is_label_line l) eqn:El;
    simpl; try reflexivity; exfalso; apply Hd || (rewrite El in Hd); auto.
Qed.

Lemma pass1_declared (ls : list string) (st st' : P1) (n : string) :
  pass1 ls st = Ok st' -> In n (declared_labels ls) -> is_Some (p1_labels st' !! n).
Proof.
  revert st. induction ls as [| l ls IH]; intros st H Hn; [destruct Hn |].
  simpl in H. cbv [mbind res_mbind res_bind] in H.
  destruct (pass1_line st l) as [s |] eqn:E; [| discriminate H].
  rewrite declared_labels_cons in Hn.
  destruct (is_label_line l) eqn:El; simpl in Hn.
  - destruct Hn as [<- | Hn].
    + apply (pass1_labels_mono ls s st' _ H).
      destruct (pass1_line_cases _ _ _ E) as [(_ & _ & -> & _) | (Hf & _)];
        [| congruence]. rewrite lookup_insert_eq. eexists. reflexivity.
    + exact (IH s H Hn).
  - exact (IH s H Hn).
Qed.

Lemma pass2_line_ok (L : gmap string tryte) (decl : list string) (st : P2) (line : string) :
  line_parses line = true -> label_operand_ok decl line = true ->
  (forall n, In n decl -> is_Some (L !! n)) ->
  exists st', pass2_line L st line = Ok st'.
Proof.
  intros Hp Hl Hdecl. unfold line_parses, label_operand_ok in *. unfold pass2_line.
  destruct (is_label_line line); simpl in *; [eexists; reflexivity |].
  destruct (parseInstructionParts line) as [| mn ops]; [discriminate Hp |].
  destruct (parseInstruction mn ops) as [[i rest] | e] eqn:Ep; [| discriminate Hp].
  cbv [mbind res_mbind res_bind].
  destruct (assembleInstruction_ok mn ops i rest L Ep) as (d0 & d1 & Ea).
  { intros n Hz. rewrite Hz in Hl. apply Hdecl.
    apply existsb_exists in Hl as (n' & Hin & Heq). apply String.eqb_eq in Heq. subst. exact Hin. }
  rewrite Ea. destruct d1; eexists; reflexivity.
Qed.

Lemma pass2_ok (L : gmap string tryte) (decl : list string) (ls : list string) (st : P2) :
  forallb line_parses ls = true -> forallb (label_operand_ok decl) ls = true ->
  (forall n, In n decl -> is_Some (L !! n)) ->
  exists st', pass2 L ls st = Ok st'.
Proof.
  revert st. induction ls as [| l ls IH]; intros st Hp Hl Hdecl; [eexists; reflexivity |].
  simpl in Hp, Hl. apply andb_true_iff in Hp as [Hp1 Hp2]. apply andb_true_iff in Hl as [Hl1 Hl2].
  destruct (pass2_line_ok L decl st l Hp1 Hl1 Hdecl) as [s E].
  simpl. rewrite E. apply IH; assumption.
Qed.

(** A valid program assembles: both passes succeed. *)
Lemma valid_program_assembles (lines : list string) (cart : Memory)
  (labels0 : gmap string tryte) :
  program_valid lines = true ->
  exists st1 st2,
    pass1 lines (p1_init labels0) = Ok st1 /\
    pass2 (p1_labels st1) lines (p2_init cart) = Ok st2 /\
    assemble_lines lines cart labels0 =
      Ok {| mem := p2_cart st2; labels := p1_labels st1;
            instructions := p2_instructions st2; warnings := p1_warnings st1 |}.
Proof.
  unfold program_valid. intros H. apply andb_true_iff in H as [Hp Hl].
  destruct (lines_parse_pass1 lines (p1_init labels0) Hp) as [st1 E1].
  destruct (pass2_ok (p1_labels st1) (declared_labels lines) lines (p2_init cart) Hp Hl
              (fun n Hn => pass1_declared lines _ st1 n E1 Hn)) as [st2 E2].
  exists st1, st2. split; [exact E1 |]. split; [exact E2 |].
  rewrite assemble_lines_passes, E1. simpl. rewrite E2. reflexivity.
Qed.

Lemma instr_count_cons (l : string) (ls : list string) :
  instr_count (l :: ls) = ((if is_label_line l then 0 else 1) + instr_count ls)%nat.
Proof.
  unfold instr_count. rewrite filter_cons.
  destruct (decide _) as [Hd | Hd]; destruct (is_label_line l) eqn:El;
    simpl; try reflexivity; exfalso; apply Hd || (rewrite El in Hd); auto.
Qed.

Lemma declared_labels_In (l : string) (ls : list string) :
  In l ls -> is_label_line l = true -> In (substr1 l) (declared_labels ls).
Proof.
  induction ls as [| l' ls IH]; intros Hin Hl; [destruct Hin |].
  rewrite declared_labels_cons. apply in_or_app.
  destruct Hin as [<- | Hin].
  - left. rewrite Hl. left. reflexivity.
  - right. exact (IH Hin Hl).
Qed.

Lemma pass2_line_cases (L : gmap string tryte) (st st' : P2) (line : string) :
  pass2_line L st line = Ok st' ->
  (is_label_line line = true /\ st' = st) \/
  (is_label_line line = false /\
   exists mn ops i rest d0 d1,
     parseInstructionParts line = mn :: ops /\
     parseInstruction mn ops = Ok (i, rest) /\
     assembleInstruction i L = Ok (d0, d1) /\
     p2_trace st' = p2_trace st ++ [(p2_address st, d0, d1)]).
Proof.
  unfold pass2_line. destruct (is_label_line line) eqn:El; simpl; intros H.
  - left. injection H as <-. auto.
  - right. split; [reflexivity |].
    destruct (parseInstructionParts line) as [| mn ops]; [discriminate H |].
    destruct (parseInstruction mn ops) as [[i rest] | e] eqn:Ep; [| discriminate H].
    cbv [mbind res_mbind res_bind] in H.
    destruct (assembleInstruction i L) as [[d0 d1] | e] eqn:Ea; [| discriminate H].
    exists mn, ops, i, rest, d0, d1. do 3 (split; [reflexivity || assumption |]).
    destruct d1 as [w1 |]; injection H as <-; reflexivity.
Qed.

Lemma pass2_trace_extend (L : gmap string tryte) (ls : list string) (st st' : P2) :
  pass2 L ls st = Ok st' ->
  exists tr, p2_trace st' = p2_trace st ++ tr /\ length tr = instr_count ls.
Proof.
  revert st. induction ls as [| l ls IH]; intros st H.
  - injection H as <-. exists []. rewrite app_nil_r. auto.
  - simpl in H. cbv [mbind res_mbind res_bind] in H.
    destruct (pass2_line L st l) as [s |] eqn:E; [| discriminate H].
    destruct (IH s H) as (tr & Htr & Hlen). rewrite instr_count_cons.
    destruct (pass2_line_cases _ _ _ _ E)
      as [(-> & ->) | (-> & mn & ops & i & rest & d0 & d1 & _ & _ & _ & Ht)].
    + exists tr. auto.
    + rewrite Htr, Ht. exists ((p2_address st, d0, d1) :: tr).
      rewrite <- app_assoc. simpl. auto.
Qed.

Lemma assembleInstruction_label (i : InstructionLabeled) (L : gmap string tryte)
  (name : string) (a d0 : tryte) (d1 : option tryte) :
  addressingMode i = WORD_IMMEDIATE -> z i = Some (ZLabel name) ->
  L !! name = Some a -> assembleInstruction i L = Ok (d0, d1) -> d1 = Some a.
Proof.
  intros Hm Hz Ha. unfold assembleInstruction. rewrite Hm, Hz, Ha.
  destruct (_ && _); intros H; [injection H as _ <-; reflexivity | discriminate H].
Qed.

(** C7 (forward reference).  Take a program [pre ++ "JMP .end" :: mid ++
    ".end" :: post] whose lines all parse and whose label operands are all
    declared somewhere in it. The [JMP .end] line is valid by itself because
    [.end] comes later in the same program. Then assembly succeeds, and pass 1
    binds [end] to an address [a]. Pass 2 encodes the [JMP .end] instruction
    (the instruction numbered [instr_count pre]) with [a] as its second word,
    i.e. as its jump target. *)
Theorem forward_reference_resolves (pre mid post : list string) :
  program_valid (pre ++ "JMP .end" :: mid ++ ".end" :: post) = true ->
  exists r st1 st2 a addr d0,
    assemble_lines (pre ++ "JMP .end" :: mid ++ ".end" :: post) (Memory_new None) ∅
      = Ok r /\
    pass1 (pre ++ "JMP .end" :: mid ++ ".end" :: post) (p1_init ∅) = Ok st1 /\
    labels r = p1_labels st1 /\
    p1_labels st1 !! "end" = Some a /\
    pass2 (p1_labels st1) (pre ++ "JMP .end" :: mid ++ ".end" :: post)
      (p2_init (Memory_new None)) = Ok st2 /\
    p2_trace st2 !! instr_count pre = Some (addr, d0, Some a).
Proof.
  intros Hv.
  destruct (valid_program_assembles _ (Memory_new None) ∅ Hv) as (st1 & st2 & E1 & E2 & Ea).
  assert (Hd : In "end" (declared_labels (pre ++ "JMP .end" :: mid ++ ".end" :: post))).
  { apply (declared_labels_In ".end"); [| reflexivity].
    apply in_or_app. right. right. apply in_or_app. right. left. reflexivity. }
  destruct (pass1_declared _ _ _ _ E1 Hd) as [a Ha].
  exists {| mem := p2_cart st2; labels := p1_labels st1;
            instructions := p2_instructions st2; warnings := p1_warnings st1 |},
    st1, st2, a.
  pose proof E2 as E2'. rewrite pass2_app in E2'.
  destruct (pass2 (p1_labels st1) pre (p2_init (Memory_new None))) as [s |] eqn:Epre;
    [| discriminate E2'].
  cbn [res_bind pass2] in E2'. cbv [mbind res_mbind res_bind] in E2'.
  destruct (pass2_line (p1_labels st1) s "JMP .end") as [s' |] eqn:Ej; [| discriminate E2'].
  destruct (pass2_line_cases _ _ _ _ Ej)
    as [(Hl & _) | (_ & mn & ops & i & rest & d0 & d1 & Hparts & Hp & Hai & Ht)];
    [discriminate Hl |].
  assert (Hparts' : parseInstructionParts "JMP .end" = ["JMP"; ".end"]) by reflexivity.
  rewrite Hparts' in Hparts. injection Hparts as <- <-.
  vm_compute in Hp. injection Hp as <- _.
  assert (Hd1 : d1 = Some a)
    by (refine (assembleInstruction_label _ _ "end" a d0 d1 _ _ Ha Hai); reflexivity).
  subst d1.
  destruct (pass2_trace_extend _ _ _ _ Epre) as (tr0 & Htr0 & Hlen0).
  destruct (pass2_trace_extend _ _ _ _ E2') as (tr & Htr & _).
  exists (p2_address s), d0.
  do 5 (split; [assumption || reflexivity |]).
  rewrite Htr, Ht, Htr0. cbn [p2_trace p2_init app]. rewrite <- app_assoc. cbn [app].
  apply list_lookup_middle. symmetry. exact Hlen0.
Qed.

Lemma forward_reference_resolves_witness :
  program_valid ["MOV r0, r1"; "JMP .end"; "NOP"; ".end"; "NOP"] = true /\
  exists r st1 st2 a addr d0,
    assemble_lines (["MOV r0, r1"] ++ "JMP .end" :: ["NOP"] ++ ".end" :: ["NOP"])
      (Memory_new None) ∅ = Ok r /\
    pass1 (["MOV r0, r1"] ++ "JMP .end" :: ["NOP"] ++ ".end" :: ["NOP"]) (p1_init ∅) = Ok st1 /\
    labels r = p1_labels st1 /\
    p1_labels st1 !! "end" = Some a /\
    pass2 (p1_labels st1) (["MOV r0, r1"] ++ "JMP .end" :: ["NOP"] ++ ".end" :: ["NOP"])
      (p2_init (Memory_new None)) = Ok st2 /\
    p2_trace st2 !! instr_count ["MOV r0, r1"] = Some (addr, d0, Some a).
Proof.
  split; [vm_compute; reflexivity |].
  apply (forward_reference_resolves ["MOV r0, r1"] ["NOP"] ["NOP"]).
  vm_compute. reflexivity.
Defined.

Lemma label_line_shape (l : string) :
  is_label_line l = true -> l = String "." (substr1 l).
Proof.
  destruct l as [| c l]; [discriminate |]. unfold is_label_line.
  destruct (Ascii.eqb_spec c "."%char) as [-> | Hc]; [reflexivity |].
  destruct c as [[] [] [] [] [] [] [] []]; try reflexivity; intros H; discriminate H.
Qed.

Lemma pass1_other_labels (ls : list string) (st st' : P1) (name : string) :
  pass1 ls st = Ok st' -> ~ In (String "." name) ls ->
  p1_labels st' !! name = p1_labels st !! name.
Proof.
  revert st. induction ls as [| l ls IH]; intros st H Hn; [injection H as <-; reflexivity |].
  simpl in H. cbv [mbind res_mbind res_bind] in H.
  destruct (pass1_line st l) as [s |] eqn:E; [| discriminate H].
  rewrite (IH s H (fun Hin => Hn (or_intror Hin))).
  destruct (pass1_line_cases _ _ _ E) as [(Hl & _ & -> & _) | (_ & -> & _)]; [| reflexivity].
  apply lookup_insert_ne. intros Heq. apply Hn. left.
  rewrite (label_line_shape l Hl), Heq. reflexivity.
Qed.

(** C9 (label redeclaration).  Take a valid program [pre ++ ("." ++ name) ::
    post] in which [pre] already declares [name] and [post] does not declare it
    again, so the middle line is the last declaration of [name]. Then assembly
    succeeds, the returned label table binds [name] to the cursor [p1_address
    st] at that last declaration, and the warning "label redeclared: name" is
    among the warnings emitted. *)
Theorem label_redeclaration_last_wins (pre post : list string) (name : string) :
  program_valid (pre ++ String "." name :: post) = true ->
  In (String "." name) pre ->
  ~ In (String "." name) post ->
  exists r st,
    assemble_lines (pre ++ String "." name :: post) (Memory_new None) ∅ = Ok r /\
    pass1 pre (p1_init ∅) = Ok st /\
    labels r !! name = Some (p1_address st) /\
    In ("label redeclared: " ++ name)%string (warnings r).
Proof.
  intros Hv Hpre Hpost.
  destruct (valid_program_assembles _ (Memory_new None) ∅ Hv) as (st1 & st2 & E1 & _ & Ea).
  pose proof E1 as E1'. rewrite pass1_app in E1'.
  destruct (pass1 pre (p1_init ∅)) as [st |] eqn:Epre; [| discriminate E1'].
  cbn [res_bind pass1] in E1'. cbv [mbind res_mbind res_bind] in E1'.
  destruct (pass1_line st (String "." name)) as [s |] eqn:El; [| discriminate E1'].
  exists {| mem := p2_cart st2; labels := p1_labels st1;
            instructions := p2_instructions st2; warnings := p1_warnings st1 |}, st.
  split; [exact Ea |]. split; [reflexivity |]. cbn [labels warnings].
  destruct (pass1_line_cases _ _ _ El) as [(_ & _ & Hlab & Hw) | (Hf & _)];
    [| discriminate Hf].
  cbn [substr1] in Hlab, Hw. split.
  - rewrite (pass1_other_labels _ _ _ _ E1' Hpost), Hlab. apply lookup_insert_eq.
  - destruct (pass1_declared pre _ _ name Epre
                (declared_labels_In (String "." name) pre Hpre eq_refl)) as [a Ha].
    rewrite Ha in Hw.
    destruct (pass1_warnings_extend _ _ _ E1') as [w Hw'].
    rewrite Hw', Hw. apply in_or_app. left. apply in_or_app. right. left. reflexivity.
Qed.

Lemma label_redeclaration_last_wins_witness :
  exists r st,
    assemble_lines (["NOP"; ".loop"; "NOP"] ++ String "." "loop" :: ["JMP .loop"])
      (Memory_new None) ∅ = Ok r /\
    pass1 ["NOP"; ".loop"; "NOP"] (p1_init ∅) = Ok st /\
    labels r !! "loop" = Some (p1_address st) /\
    In ("label redeclared: " ++ "loop")%string (warnings r).
Proof.
  apply (label_redeclaration_last_wins ["NOP"; ".loop"; "NOP"] ["JMP .loop"] "loop").
  - vm_compute. reflexivity.
  - simpl. auto.
  - simpl. intros [H | []]. discriminate H.
Defined.

Lemma assemble_in_spec (h : heap) (s : string) :
  assemble_in h s =
  match assemble s with
  | Ok a =>
      (<[length h := OMem (mem a)]> (<[S (length h) := OLabels (labels a)]>
         (h ++ [OMem (Memory_new None); OLabels ∅; OInstrs (instructions a)])),
       Ok {| r_mem := length h; r_labels := S (length h);
             r_instrs := S (S (length h)); r_warnings := warnings a |})
  | Throw e => (h ++ [OMem (Memory_new None); OLabels ∅], Throw e)
  end.
Proof.
  unfold assemble_in, alloc, assemble. cbn [fst snd].
  rewrite length_app. cbn [length]. rewrite Nat.add_1_r.
  rewrite <- app_assoc. cbn [app].
  rewrite list_lookup_middle by reflexivity.
  replace ((h ++ [OMem (Memory_new None); OLabels ∅]) !! S (length h))
    with (Some (OLabels (∅ : gmap string tryte))).
  2:{ rewrite lookup_app_r by lia. rewrite Nat.sub_succ_l, Nat.sub_diag by lia. reflexivity. }
  destruct (assemble_lines (preprocess s) (Memory_new None) ∅) as [a | e]; [| reflexivity].
  rewrite length_app. cbn [length]. rewrite <- app_assoc. cbn [app].
  replace (length h + 2)%nat with (S (S (length h))) by lia. reflexivity.
Qed.

(** C6 (determinism and reentrancy).  Run [assemble(s)] on any heap [h], then
    run it again on the heap the first call left.  Either both calls throw the
    same error, or both return.  In the second case:
    - the first call's image and label table are the pure result [assemble s],
      so they do not depend on [h];
    - the second call's image and label table live in fresh cells, allocated
      beyond every cell that existed before it;
    - their contents equal the first call's;
    - the second call leaves the first call's cells unchanged. *)
Theorem assemble_reentrant (h : heap) (s : string) :
  match assemble_in h s with
  | (h1, Ok a1) =>
      match assemble_in h1 s with
      | (h2, Ok a2) =>
          (exists r, assemble s = Ok r /\
             h1 !! r_mem a1 = Some (OMem (mem r)) /\
             h1 !! r_labels a1 = Some (OLabels (labels r))) /\
          (length h1 <= r_mem a2 /\ length h1 <= r_labels a2 /\
           r_mem a2 <> r_labels a2)%nat /\
          h2 !! r_mem a2 = h1 !! r_mem a1 /\
          h2 !! r_labels a2 = h1 !! r_labels a1 /\
          h2 !! r_mem a1 = h1 !! r_mem a1 /\
          h2 !! r_labels a1 = h1 !! r_labels a1
      | (_, Throw _) => False
      end
  | (h1, Throw e1) => snd (assemble_in h1 s) = Throw e1
  end.
Proof.
  rewrite assemble_in_spec.
  destruct (assemble s) as [a | e] eqn:Ea; [| rewrite assemble_in_spec, Ea; reflexivity].
  rewrite assemble_in_spec, Ea. cbn [r_mem r_labels].
  set (h1 := <[length h := OMem (mem a)]> (<[S (length h) := OLabels (labels a)]>
               (h ++ [OMem (Memory_new None); OLabels ∅; OInstrs (instructions a)]))).
  assert (Hlen : length h1 = (length h + 3)%nat).
  { subst h1. rewrite !length_insert, length_app. reflexivity. }
  assert (Hm : h1 !! length h = Some (OMem (mem a))).
  { subst h1. apply list_lookup_insert_eq. rewrite length_insert, length_app. simpl. lia. }
  assert (Hl : h1 !! S (length h) = Some (OLabels (labels a))).
  { subst h1. rewrite list_lookup_insert_ne by lia. apply list_lookup_insert_eq.
    rewrite length_app. simpl. lia. }
  set (h2 := h1 ++ [OMem (Memory_new None); OLabels ∅; OInstrs (instructions a)]).
  assert (Hlen2 : length h2 = (length h1 + 3)%nat).
  { subst h2. rewrite length_app. reflexivity. }
  assert (Hold : forall i, (i < length h1)%nat ->
            (<[length h1 := OMem (mem a)]> (<[S (length h1) := OLabels (labels a)]> h2)) !! i
            = h1 !! i).
  { intros i Hi. rewrite !list_lookup_insert_ne by lia. subst h2.
    apply lookup_app_l. exact Hi. }
  split; [exists a; auto |].
  split; [lia |].
  rewrite (Hold (length h)) by lia. rewrite (Hold (S (length h))) by lia.
  rewrite Hm, Hl. split; [| split; [| auto]].
  - apply list_lookup_insert_eq. rewrite length_insert. lia.
  - rewrite list_lookup_insert_ne by lia. apply list_lookup_insert_eq. lia.
Qed.

(* ================================================================== *)
(** * Further properties of the code *)

(** ** Memory *)

Lemma t2n_in_range (a : tn) :
  -9841 <= tn_value a <= 9841 -> t2n a = Ok (tn_value a).
Proof.
  destruct a as [w | k]; cbn [tn_value]; intros H; [reflexivity |].
  rewrite t2n_TNum. apply in_word_range_spec in H. rewrite H. reflexivity.
Qed.

Lemma reachable_cells (m : Memory) :
  Reachable m ->
  length (block m) = Z.to_nat TRYTE_NUM_VALUES :> nat /\
  Forall (fun c => -9841 <= c <= 9841) (block m).
Proof.
  induction 1 as [size | m m' v a _ [IHlen IHall] Hv Hs].
  - unfold Memory_new. cbn [block]. rewrite repeat_length. split; [reflexivity |].
    apply Forall_forall. intros c Hc. apply list_elem_of_In, repeat_spec in Hc. lia.
  - unfold store in Hs. cbv [mbind res_mbind res_bind] in Hs.
    destruct (t2n a) as [ia |]; [| discriminate Hs].
    destruct (t2n v) as [iv |] eqn:Ev; [| discriminate Hs].
    injection Hs as <-. cbn [block]. unfold i32_set.
    destruct (ia + 9841 <? 0); [auto |].
    destruct (t2n_range v iv Hv Ev) as [Hr _].
    rewrite length_insert, to_int32_small by exact Hr. split; [exact IHlen |].
    apply Forall_insert; assumption.
Qed.

(** [load] never throws on a memory built by [new Memory()] and [store]s of
    well-formed values, at any address in [-9841, 9841]: every cell holds a
    number [n2t] accepts.  The tryte it returns has nine trits. *)
Theorem Memory_load_total (m : Memory) (a : tn) :
  Reachable m -> -9841 <= tn_value a <= 9841 ->
  exists w, load m a = Ok w /\ length w = 9%nat.
Proof.
  intros Hm Ha. destruct (reachable_cells m Hm) as [Hlen Hall].
  unfold load. rewrite (t2n_in_range a Ha). cbv [mbind res_mbind res_bind].
  unfold i32_get. destruct (Z.ltb_spec (tn_value a + 9841) 0); [lia |].
  destruct (block m !! Z.to_nat (tn_value a + 9841)) as [c |] eqn:Ec.
  - rewrite Forall_lookup in Hall. pose proof (Hall _ _ Ec) as Hc.
    exists (digits 9 c). split; [apply n2t_ok; exact Hc | apply digits_length].
  - exfalso. apply lookup_ge_None in Ec. rewrite Hlen in Ec.
    pose proof (index_of_range _ Ha). lia.
Qed.

Lemma Memory_load_total_witness :
  exists w, load {| block := i32_set (block (Memory_new None)) (-5 + 9841) 7 |} (TNum (-5))
            = Ok w /\ length w = 9%nat.
Proof.
  apply Memory_load_total; [| simpl; lia].
  apply (reach_store (Memory_new None) _ (TNum 7) (TNum (-5))); [constructor | exact I |].
  reflexivity.
Defined.

(** A second [store] to the same address overwrites the first: storing [v1]
    and then [v2] at [a] leaves the memory that storing [v2] alone does. *)
Theorem Memory_store_overwrite (m m1 : Memory) (v1 v2 a : tn) :
  store m v1 a = Ok m1 -> store m1 v2 a = store m v2 a.
Proof.
  unfold store. cbv [mbind res_mbind res_bind].
  destruct (t2n a) as [ia |]; [| discriminate].
  destruct (t2n v1) as [i1 |]; [| discriminate]. intros H. injection H as <-.
  destruct (t2n v2) as [i2 |]; [| reflexivity]. cbn [block]. unfold i32_set.
  destruct (ia + 9841 <? 0); [reflexivity |]. rewrite list_insert_insert_eq. reflexivity.
Qed.

Lemma Memory_store_overwrite_witness :
  store {| block := i32_set (block (Memory_new None)) (4 + 9841) 1 |} (TNum 2) (TNum 4)
  = store (Memory_new None) (TNum 2) (TNum 4).
Proof. apply (Memory_store_overwrite _ _ (TNum 1)). reflexivity. Defined.

(** [store]s at two different addresses commute. *)
Theorem Memory_store_commute (m m1 m2 : Memory) (v1 v2 a b : tn) (ia ib : Z) :
  t2n a = Ok ia -> t2n b = Ok ib -> ia <> ib ->
  store m v1 a = Ok m1 -> store m1 v2 b = Ok m2 ->
  exists m1', store m v2 b = Ok m1' /\ store m1' v1 a = Ok m2.
Proof.
  intros Ha Hb Hne. unfold store. rewrite Ha, Hb. cbv [mbind res_mbind res_bind].
  destruct (t2n v1) as [i1 |]; [| discriminate]. intros H1. injection H1 as <-.
  destruct (t2n v2) as [i2 |]; [| discriminate]. intros H2. injection H2 as <-.
  eexists. split; [reflexivity |]. cbn [block]. f_equal. f_equal. unfold i32_set.
  destruct (Z.ltb_spec (ia + 9841) 0); destruct (Z.ltb_spec (ib + 9841) 0);
    try reflexivity.
  apply list_insert_insert_ne. lia.
Qed.

Lemma Memory_store_commute_witness :
  exists m1', store (Memory_new None) (TNum 2) (TNum 3) = Ok m1' /\
    store m1' (TNum 1) (TNum (-3)) =
    Ok {| block := i32_set (i32_set (block (Memory_new None)) (-3 + 9841) 1) (3 + 9841) 2 |}.
Proof.
  apply (Memory_store_commute (Memory_new None)
           {| block := i32_set (block (Memory_new None)) (-3 + 9841) 1 |}
           _ (TNum 1) (TNum 2) (TNum (-3)) (TNum 3) (-3) 3); try reflexivity. lia.
Defined.

(** ** Line preprocessing *)







(** Comment removal on a line whose code part has no [;]: the comment from
    the [;] on is cut when no line terminator follows it.  When one does
    (a carriage return left by CRLF line endings, say) the regular
    expression [/;.*$/] cannot reach the end of the line, and the [;] with
    the comment stays in the line. *)
Theorem strip_comment_line (code comment : string) :
  ~ In ";"%char (list_ascii_of_string code) ->
  strip_comment (code ++ String ";"%char comment) =
  if has_line_terminator comment
  then (code ++ String ";"%char (strip_comment comment))%string
  else code.
Proof.
  induction code as [| c code IH]; intros Hc.
  - simpl. destruct (has_line_terminator comment); reflexivity.
  - simpl in Hc |- *. destruct (Ascii.eqb_spec c ";"%char) as [-> | Hne];
      [exfalso; auto |].
    simpl. rewrite IH by auto. destruct (has_line_terminator comment); reflexivity.
Qed.

Lemma strip_comment_line_witness :
  strip_comment ("MOV r0, r1 " ++ String ";"%char " copy") = "MOV r0, r1 "%string /\
  strip_comment ("MOV r0, r1 " ++ String ";"%char (" copy" ++ String "013"%char ""))
  = ("MOV r0, r1 " ++ String ";"%char (strip_comment (" copy" ++ String "013"%char "")))%string.
Proof.
  split.
  - exact (strip_comment_line "MOV r0, r1 " " copy" ltac:(simpl; intuition discriminate)).
  - exact (strip_comment_line "MOV r0, r1 " (" copy" ++ String "013"%char "")
             ltac:(simpl; intuition discriminate)).
Defined.

(** ** Splitting and parsing instruction lines *)

Lemma string_app_assoc (a b c : string) :
  ((a ++ b) ++ c)%string = (a ++ (b ++ c))%string.
Proof.
  induction a as [| d a IH]; [reflexivity |].
  change (String d ((a ++ b) ++ c)%string = String d (a ++ (b ++ c))%string).
  rewrite IH. reflexivity.
Qed.

Lemma append_String (c : ascii) (a b : string) :
  (String c a ++ b)%string = String c (a ++ b).
Proof. reflexivity. Qed.

Lemma append_empty (b : string) : (EmptyString ++ b)%string = b.
Proof. reflexivity. Qed.

Lemma string_app_nil_r (a : string) : (a ++ EmptyString)%string = a.
Proof.
  induction a as [| d a IH]; [reflexivity |].
  change (String d (a ++ EmptyString)%string = String d a). rewrite IH. reflexivity.
Qed.

(** Before the first space every character goes to the buffer. *)
Lemma parts_loop_mnemonic (s rest buf : string) :
  ~ In " "%char (list_ascii_of_string s) ->
  parts_loop (s ++ rest) [] buf = parts_loop rest [] (buf ++ s).
Proof.
  revert buf. induction s as [| c s IH]; intros buf Hs; simpl in *.
  - rewrite string_app_nil_r. reflexivity.
  - destruct (Ascii.eqb_spec c " "%char) as [-> | _]; [exfalso; auto |].
    rewrite IH by auto. rewrite string_app_assoc. reflexivity.
Qed.

(** After it, every character but [,] goes to the buffer. *)
Lemma parts_loop_operand (s rest buf : string) (os : list string) :
  os <> [] -> ~ In ","%char (list_ascii_of_string s) ->
  parts_loop (s ++ rest) os buf = parts_loop rest os (buf ++ s).
Proof.
  revert buf. induction s as [| c s IH]; intros buf Hos Hs; simpl in *.
  - rewrite string_app_nil_r. reflexivity.
  - destruct os as [| o os]; [congruence |].
    destruct (Ascii.eqb_spec c ","%char) as [-> | _]; [exfalso; auto |].
    rewrite IH by auto. rewrite string_app_assoc. reflexivity.
Qed.

Lemma parts_loop_join (ops os : list string) :
  os <> [] -> Forall (fun o => ~ In ","%char (list_ascii_of_string o)) ops ->
  match last ops with Some o => o <> EmptyString | None => True end ->
  parts_loop (join "," ops) os EmptyString = os ++ ops.
Proof.
  revert os. induction ops as [| o ops IH]; intros os Hos Hall Hlast.
  - simpl. rewrite app_nil_r. reflexivity.
  - inversion Hall as [| ? ? Ho Hops]; subst. destruct ops as [| o2 ops].
    + simpl in Hlast. cbn [join]. rewrite <- (string_app_nil_r o) at 1.
      rewrite parts_loop_operand by assumption. simpl.
      destruct o as [| c o]; [congruence | reflexivity].
    + change (join "," (o :: o2 :: ops)) with (o ++ "," ++ join "," (o2 :: ops))%string.
      rewrite parts_loop_operand by assumption. rewrite append_String, append_empty.
      destruct os as [| o0 os]; [congruence |]. cbn [parts_loop].
      rewrite Ascii.eqb_refl, append_empty.
      rewrite IH; [| discriminate | exact Hops | exact Hlast].
      rewrite <- app_assoc. reflexivity.
Qed.

(** [parseInstructionParts] undoes writing a line as the mnemonic, one space
    and the operands joined by commas.  The mnemonic must have no space and
    no operand a comma.  The last operand must be non-empty, because an empty
    trailing buffer is dropped. *)
Theorem parseInstructionParts_join (mn : string) (ops : list string) :
  ~ In " "%char (list_ascii_of_string mn) ->
  Forall (fun o => ~ In ","%char (list_ascii_of_string o)) ops ->
  match last ops with Some o => o <> EmptyString | None => True end ->
  parseInstructionParts (mn ++ String " "%char (join "," ops)) = mn :: ops.
Proof.
  intros Hmn Hops Hlast. unfold parseInstructionParts.
  rewrite parts_loop_mnemonic by exact Hmn. simpl. rewrite append_empty.
  apply parts_loop_join; [discriminate | exact Hops | exact Hlast].
Qed.

Lemma parseInstructionParts_join_witness :
  parseInstructionParts ("ADD" ++ String " "%char (join "," ["r0"; " r1"])) =
  ["ADD"; "r0"; " r1"].
Proof.
  apply parseInstructionParts_join; [simpl; intuition discriminate | |simpl; discriminate].
  repeat constructor; simpl; intuition discriminate.
Defined.

(** A non-empty line without a space character is one part: the whole line
    is the mnemonic.  A tab does not separate a mnemonic from its operands,
    so ["MOV\tr0,r1"] is read as the mnemonic ["MOV\tr0,r1"]. *)
Theorem parseInstructionParts_no_space (line : string) :
  line <> EmptyString -> ~ In " "%char (list_ascii_of_string line) ->
  parseInstructionParts line = [line].
Proof.
  intros Hne Hsp. unfold parseInstructionParts.
  rewrite <- (string_app_nil_r line) at 1. rewrite parts_loop_mnemonic by exact Hsp.
  simpl. destruct line; [congruence | reflexivity].
Qed.

Lemma parseInstructionParts_no_space_witness :
  parseInstructionParts ("MOV" ++ String "009"%char "r0,r1") =
  ["MOV" ++ String "009"%char "r0,r1"]%string.
Proof.
  apply parseInstructionParts_no_space; [discriminate | simpl; intuition discriminate].
Defined.

(** ** Case and white space in operands and mnemonics *)

Lemma is_js_space_upper (c : ascii) : is_js_space (ascii_upper c) = is_js_space c.
Proof. destruct c as [[] [] [] [] [] [] [] []]; vm_compute; reflexivity. Qed.

Lemma ascii_lower_upper (c : ascii) : ascii_lower (ascii_upper c) = ascii_lower c.
Proof. destruct c as [[] [] [] [] [] [] [] []]; vm_compute; reflexivity. Qed.

Lemma ascii_upper_lower (c : ascii) : ascii_upper (ascii_lower c) = ascii_upper c.
Proof. destruct c as [[] [] [] [] [] [] [] []]; vm_compute; reflexivity. Qed.

Lemma str_map_comp (f g : ascii -> ascii) (s : string) :
  str_map f (str_map g s) = str_map (fun c => f (g c)) s.
Proof. induction s as [| c s IH]; simpl; [reflexivity | rewrite IH; reflexivity]. Qed.

Lemma str_map_ext (f g : ascii -> ascii) (s : string) :
  (forall c, f c = g c) -> str_map f s = str_map g s.
Proof. intros H. induction s as [| c s IH]; simpl; [reflexivity | rewrite H, IH; reflexivity]. Qed.

Lemma is_empty_str_map (f : ascii -> ascii) (s : string) :
  is_empty (str_map f s) = is_empty s.
Proof. destruct s; reflexivity. Qed.

Lemma trim_start_upper (s : string) :
  trim_start (toUpperCase s) = toUpperCase (trim_start s).
Proof.
  unfold toUpperCase. induction s as [| c s IH]; [reflexivity |]. simpl.
  rewrite is_js_space_upper. destruct (is_js_space c); [exact IH | reflexivity].
Qed.

Lemma trim_end_upper (s : string) :
  trim_end (toUpperCase s) = toUpperCase (trim_end s).
Proof.
  unfold toUpperCase. induction s as [| c s IH]; [reflexivity |]. simpl.
  fold (toUpperCase s) in IH |- *. rewrite IH, is_js_space_upper.
  unfold toUpperCase. rewrite is_empty_str_map.
  destruct (is_js_space c && is_empty (trim_end s)); reflexivity.
Qed.

Lemma trim_upper (s : string) : trim (toUpperCase s) = toUpperCase (trim s).
Proof. unfold trim. rewrite trim_start_upper, trim_end_upper. reflexivity. Qed.

Lemma toLowerCase_toUpperCase (s : string) : toLowerCase (toUpperCase s) = toLowerCase s.
Proof.
  unfold toLowerCase, toUpperCase. rewrite str_map_comp.
  apply str_map_ext. exact ascii_lower_upper.
Qed.

Lemma toUpperCase_toLowerCase (s : string) : toUpperCase (toLowerCase s) = toUpperCase s.
Proof.
  unfold toLowerCase, toUpperCase. rewrite str_map_comp.
  apply str_map_ext. exact ascii_upper_lower.
Qed.

Lemma trim_start_blank (w x : string) : js_blank w -> trim_start (w ++ x)%string = trim_start x.
Proof.
  unfold js_blank. induction w as [| c w IH]; intros H; [reflexivity |].
  inversion H as [| ? ? Hc Hw]; subst. rewrite append_String. simpl. rewrite Hc. auto.
Qed.

Lemma trim_end_blank (x w : string) : js_blank w -> trim_end (x ++ w)%string = trim_end x.
Proof.
  unfold js_blank. intros H. induction x as [| c x IH].
  - rewrite append_empty. induction w as [| c w IHw]; [reflexivity |].
    inversion H as [| ? ? Hc Hw]; subst. simpl. rewrite (IHw Hw), Hc. reflexivity.
  - rewrite append_String. simpl. rewrite IH. reflexivity.
Qed.

Lemma trim_start_all_blank (w : string) : js_blank w -> trim_start w = EmptyString.
Proof.
  intros H. rewrite <- (string_app_nil_r w). rewrite trim_start_blank by exact H. reflexivity.
Qed.

Lemma trim_pad (w1 o w2 : string) :
  js_blank w1 -> js_blank w2 -> trim (w1 ++ o ++ w2)%string = trim o.
Proof.
  intros H1 H2. unfold trim. rewrite trim_start_blank by exact H1.
  induction o as [| c o IH].
  - rewrite append_empty, trim_start_all_blank by exact H2. reflexivity.
  - rewrite append_String. simpl. destruct (is_js_space c); [exact IH |].
    rewrite <- append_String. apply trim_end_blank. exact H2.
Qed.

(** Register operands ignore case and surrounding white space:
    [" R5 "] names the same register as ["r5"], and an operand that is not
    a register stays one whatever its case or padding. *)
Theorem parseRegisterOperand_case_space (w1 o w2 : string) :
  js_blank w1 -> js_blank w2 ->
  parseRegisterOperand (Some (w1 ++ toUpperCase o ++ w2)%string) = parseRegisterOperand (Some o).
Proof.
  intros H1 H2. unfold parseRegisterOperand.
  rewrite trim_pad by assumption. rewrite trim_upper, toLowerCase_toUpperCase.
  destruct o as [| c o].
  - simpl. destruct (is_empty _); reflexivity.
  - replace (is_empty (w1 ++ toUpperCase (String c o) ++ w2)%string) with false
      by (destruct w1; reflexivity).
    reflexivity.
Qed.

Lemma parseRegisterOperand_case_space_witness :
  parseRegisterOperand (Some (" " ++ toUpperCase "r5" ++ String "009"%char "")%string)
  = parseRegisterOperand (Some "r5").
Proof.
  apply parseRegisterOperand_case_space; repeat constructor.
Defined.

(** Mnemonics ignore case: [parseInstruction] succeeds on the lower-cased
    mnemonic exactly when it does on the mnemonic, with the same instruction
    and the same remaining operands. *)
Theorem parseInstruction_mnemonic_case (mn : string) (ops : list string)
  (r : InstructionLabeled * list string) :
  parseInstruction (toLowerCase mn) ops = Ok r <-> parseInstruction mn ops = Ok r.
Proof.
  unfold parseInstruction. rewrite toUpperCase_toLowerCase.
  generalize (toUpperCase mn) as m. intros m.
  repeat (destruct (String.eqb m _); [reflexivity |]).
  split; intros H; discriminate H.
Qed.

Lemma register_r4 (o : string) :
  toLowerCase (trim o) = "r4"%string -> parseRegisterOperand (Some o) = Some (n2t_const 0).
Proof.
  intros H. unfold parseRegisterOperand.
  destruct o as [| c o]; [discriminate H |]. cbn [is_empty]. rewrite H. reflexivity.
Qed.

(** As the source comment says, [NOP] (in any case) is the instruction
    [MOV r4, r4], whatever case and padding the two [r4] operands have. *)
Theorem nop_is_mov_r4_r4 (mn o1 o2 : string) :
  toUpperCase mn = "NOP"%string ->
  toLowerCase (trim o1) = "r4"%string -> toLowerCase (trim o2) = "r4"%string ->
  parseInstruction mn [] = parseInstruction "MOV" [o1; o2].
Proof.
  intros Hmn H1 H2.
  transitivity (@Ok (InstructionLabeled * list string)
    ({| opcode := n2t_const 0; addressingMode := REGISTER_REGISTER;
        x := n2t_const 0; y := n2t_const 0; z := None |}, [])).
  { unfold parseInstruction. rewrite Hmn. reflexivity. }
  assert (E : parseInstruction "MOV" [o1; o2] =
    parse_reg_yz 0 "MOV: operand 1 (destination) must be a register"
      "MOV: operand 2 (source) must be a register or immediate" [o1; o2])
    by reflexivity.
  rewrite E. unfold parse_reg_yz, shift. cbv [mbind res_mbind res_bind].
  rewrite (register_r4 o1 H1). cbv [expect]. unfold unionParseYZ.
  rewrite (register_r4 o2 H2). reflexivity.
Qed.

Lemma nop_is_mov_r4_r4_witness :
  parseInstruction "nop" [] = parseInstruction "MOV" ["R4"; " r4"].
Proof. apply nop_is_mov_r4_r4; reflexivity. Defined.

(** ** Operand kinds and operand counts *)

Lemma length_toLowerCase (s : string) : String.length (toLowerCase s) = String.length s.
Proof. unfold toLowerCase. induction s as [| c s IH]; simpl; [reflexivity | rewrite IH; reflexivity]. Qed.

Lemma register_operand_length (o : option string) (t : tryte) :
  parseRegisterOperand o = Some t ->
  exists s, o = Some s /\ String.length (trim s) = 2%nat.
Proof.
  unfold parseRegisterOperand. destruct o as [s |]; [| discriminate].
  destruct (is_empty s); [discriminate |]. intros H. exists s. split; [reflexivity |].
  rewrite <- length_toLowerCase. revert H.
  generalize (toLowerCase (trim s)) as m. intros m.
  split_mnemonic; cbv beta iota; intros H; try discriminate H; reflexivity.
Qed.

Lemma register_not_immediate (o : option string) (t : tryte) :
  parseRegisterOperand o = Some t -> parseImmediateOperand o = None.
Proof.
  intros H. destruct (register_operand_length o t H) as (s & -> & Hlen).
  unfold parseImmediateOperand. destruct (is_empty s); [reflexivity |].
  unfold s2t. rewrite Hlen. reflexivity.
Qed.

(** No operand is both a register and an immediate (a register name has two
    characters, an immediate nine).  So [parseImmRegOperand], which tries an
    immediate first, tags an operand as a register exactly when
    [parseRegisterOperand] accepts it, and as an immediate exactly when
    [parseImmediateOperand] does; the order of the two attempts does not
    matter. *)
Theorem parseImmRegOperand_spec (o : option string) (t : tryte) :
  (parseImmRegOperand o = Some (IRRegister t) <-> parseRegisterOperand o = Some t) /\
  (parseImmRegOperand o = Some (IRImmediate t) <-> parseImmediateOperand o = Some t).
Proof.
  unfold parseImmRegOperand. destruct (parseImmediateOperand o) as [i |] eqn:Ei.
  - split; split; intros H; try congruence.
    rewrite (register_not_immediate o t H) in Ei. discriminate Ei.
  - destruct (parseRegisterOperand o); split; split; intros H; congruence.
Qed.

(** An instruction line whose mnemonic leaves operands unread (a [NOP]
    with an operand, a [MOV] with three, a [JMP] with two) makes assembly
    throw ["<mnemonic>: too many operands"] when the lines before it parse. *)
Theorem too_many_operands_fails (pre post : list string) (line mn : string)
  (ops : list string) (i : InstructionLabeled) (o : string) (rest : list string)
  (cart : Memory) (labels0 : gmap string tryte) :
  forallb line_parses pre = true ->
  is_label_line line = false -> parseInstructionParts line = mn :: ops ->
  parseInstruction mn ops = Ok (i, o :: rest) ->
  assemble_lines (pre ++ line :: post) cart labels0 =
    Throw (Error (mn ++ ": too many operands")).
Proof.
  intros Hpre Hl Hp Hi. apply (assemble_fails_at pre post line _ cart labels0); [| exact Hpre].
  intros st. unfold pass1_line. rewrite Hl, Hp. simpl. rewrite Hi. reflexivity.
Qed.

Lemma too_many_operands_fails_witness :
  assemble_lines (["MOV r0, r1"] ++ "NOP r2" :: ["JMP r0"]) (Memory_new None) ∅ =
    Throw (Error ("NOP" ++ ": too many operands")).
Proof.
  apply (too_many_operands_fails ["MOV r0, r1"] ["JMP r0"] "NOP r2" "NOP" ["r2"]
           {| opcode := n2t_const 0; addressingMode := REGISTER_REGISTER;
              x := n2t_const 0; y := n2t_const 0; z := None |} "r2" []);
    vm_compute; reflexivity.
Defined.

(** ** The label table and the warnings *)

Lemma assemble_lines_ok_inv (lines : list string) (cart : Memory)
  (labels0 : gmap string tryte) (r : Assembled) :
  assemble_lines lines cart labels0 = Ok r ->
  exists st1 st2,
    pass1 lines (p1_init labels0) = Ok st1 /\
    pass2 (p1_labels st1) lines (p2_init cart) = Ok st2 /\
    r = {| mem := p2_cart st2; labels := p1_labels st1;
           instructions := p2_instructions st2; warnings := p1_warnings st1 |}.
Proof.
  rewrite assemble_lines_passes. destruct (pass1 lines (p1_init labels0)) as [st1 |] eqn:E1;
    [| discriminate]. cbn [res_bind].
  destruct (pass2 (p1_labels st1) lines (p2_init cart)) as [st2 |] eqn:E2; [| discriminate].
  cbn [res_bind]. intros H. injection H as <-. exists st1, st2. auto.
Qed.

Lemma pass1_labels_origin (ls : list string) (st st' : P1) (n : string) :
  pass1 ls st = Ok st' -> is_Some (p1_labels st' !! n) ->
  is_Some (p1_labels st !! n) \/ In n (declared_labels ls).
Proof.
  revert st. induction ls as [| l ls IH]; intros st H Hn.
  - injection H as <-. left. exact Hn.
  - simpl in H. cbv [mbind res_mbind res_bind] in H.
    destruct (pass1_line st l) as [s |] eqn:E; [| discriminate H].
    rewrite declared_labels_cons.
    destruct (IH s H Hn) as [Hs | Hin]; [| right; apply in_or_app; right; exact Hin].
    destruct (pass1_line_cases _ _ _ E) as [(Hl & _ & Hlab & _) | (Hl & Hlab & _)];
      rewrite Hlab in Hs.
    + destruct (decide (substr1 l = n)) as [<- | Hne].
      * right. rewrite Hl. left. reflexivity.
      * left. rewrite lookup_insert_ne in Hs by exact Hne. exact Hs.
    + left. exact Hs.
Qed.

(** The label table [assemble] returns binds exactly the names the program
    declares with a label line: no more, no fewer. *)
Theorem assemble_labels_domain (lines : list string) (cart : Memory) (r : Assembled) :
  assemble_lines lines cart ∅ = Ok r ->
  forall n, is_Some (labels r !! n) <-> In n (declared_labels lines).
Proof.
  intros H n. destruct (assemble_lines_ok_inv _ _ _ _ H) as (st1 & st2 & E1 & _ & ->).
  cbn [labels]. split.
  - intros Hn. destruct (pass1_labels_origin _ _ _ n E1 Hn) as [[a Ha] | Hin];
      [unfold p1_init in Ha; cbn [p1_labels] in Ha; rewrite lookup_empty in Ha;
       discriminate Ha | exact Hin].
  - intros Hin. exact (pass1_declared _ _ _ n E1 Hin).
Qed.

Lemma assemble_labels_domain_witness :
  exists r, assemble_lines [".top"; "NOP"; ".top"; "JMP .top"] (Memory_new None) ∅ = Ok r /\
    forall n, is_Some (labels r !! n) <-> In n (declared_labels [".top"; "NOP"; ".top"; "JMP .top"]).
Proof.
  destruct (assemble_lines [".top"; "NOP"; ".top"; "JMP .top"] (Memory_new None) ∅)
    as [r | e] eqn:E.
  - exists r. split; [reflexivity |].
    exact (assemble_labels_domain [".top"; "NOP"; ".top"; "JMP .top"] (Memory_new None) r E).
  - vm_compute in E. discriminate E.
Defined.

Lemma existsb_eqb_In (x : string) (l : list string) :
  existsb (String.eqb x) l = true <-> In x l.
Proof.
  rewrite existsb_exists. split.
  - intros (y & Hy & Heq). apply String.eqb_eq in Heq. subst. exact Hy.
  - intros Hx. exists x. split; [exact Hx | apply String.eqb_refl].
Qed.

Lemma pass1_warnings_redeclarations (ls seen : list string) (st st' : P1) :
  pass1 ls st = Ok st' ->
  (forall n, is_Some (p1_labels st !! n) <-> In n seen) ->
  p1_warnings st' = p1_warnings st ++ redeclarations seen ls.
Proof.
  revert st seen. induction ls as [| l ls IH]; intros st seen H Hseen.
  - injection H as <-. rewrite app_nil_r. reflexivity.
  - simpl in H. cbv [mbind res_mbind res_bind] in H.
    destruct (pass1_line st l) as [s |] eqn:E; [| discriminate H].
    destruct (pass1_line_cases _ _ _ E) as [(Hl & _ & Hlab & Hw) | (Hl & Hlab & Hw)];
      simpl; rewrite Hl.
    + rewrite (IH s (substr1 l :: seen) H), Hw, <- app_assoc.
      * f_equal. f_equal.
        destruct (p1_labels st !! substr1 l) as [a |] eqn:Ea;
          destruct (existsb (String.eqb (substr1 l)) seen) eqn:Ex; try reflexivity.
        -- exfalso. assert (Hin : In (substr1 l) seen)
             by (apply Hseen; rewrite Ea; eexists; reflexivity).
           apply existsb_eqb_In in Hin. congruence.
        -- exfalso. apply existsb_eqb_In, Hseen in Ex. rewrite Ea in Ex.
           destruct Ex as [? Hc]; discriminate Hc.
      * intros n. rewrite Hlab. simpl. destruct (decide (substr1 l = n)) as [<- | Hne].
        -- rewrite lookup_insert_eq. split; [auto | intros _; eexists; reflexivity].
        -- rewrite lookup_insert_ne by exact Hne. rewrite Hseen. intuition.
    + rewrite (IH s seen H), Hw; [reflexivity |]. rewrite Hlab. exact Hseen.
Qed.

(** The warnings [assemble] emits are exactly one ["label redeclared: name"]
    per label line whose name an earlier label line already declared, in
    the order of those lines. *)
Theorem assemble_warnings (lines : list string) (cart : Memory) (r : Assembled) :
  assemble_lines lines cart ∅ = Ok r -> warnings r = redeclarations [] lines.
Proof.
  intros H. destruct (assemble_lines_ok_inv _ _ _ _ H) as (st1 & st2 & E1 & _ & ->).
  cbn [warnings]. rewrite (pass1_warnings_redeclarations _ [] _ _ E1); [reflexivity |].
  intros n. unfold p1_init. cbn [p1_labels]. rewrite lookup_empty.
  split; [intros [? Hc]; discriminate Hc | intros []].
Qed.

Lemma assemble_warnings_witness :
  exists r, assemble_lines [".a"; "NOP"; ".a"; ".b"; ".a"] (Memory_new None) ∅ = Ok r /\
    warnings r = redeclarations [] [".a"; "NOP"; ".a"; ".b"; ".a"].
Proof.
  destruct (assemble_lines [".a"; "NOP"; ".a"; ".b"; ".a"] (Memory_new None) ∅)
    as [r | e] eqn:E.
  - exists r. split; [reflexivity |].
    exact (assemble_warnings [".a"; "NOP"; ".a"; ".b"; ".a"] (Memory_new None) r E).
  - vm_compute in E. discriminate E.
Defined.

(** ** The program image *)

Lemma wrap_range (n : Z) : -9841 <= wrap n <= 9841.
Proof.
  unfold wrap, TRYTE_NUM_VALUES.
  pose proof (Z.mod_pos_bound (n + 9841) 19683 ltac:(lia)). lia.
Qed.

Lemma wrap_succ (n : Z) : wrap (wrap n + 1) = wrap (n + 1).
Proof.
  unfold wrap, TRYTE_NUM_VALUES.
  replace ((n + 9841) mod 19683 - 9841 + 1 + 9841) with ((n + 9841) mod 19683 + 1) by lia.
  rewrite Zplus_mod_idemp_l. replace (n + 9841 + 1) with (n + 1 + 9841) by lia.
  reflexivity.
Qed.

Lemma cell_lt (k : nat) : (cell k < Z.to_nat TRYTE_NUM_VALUES)%nat.
Proof. unfold cell. apply index_of_range, wrap_range. Qed.

Lemma cell_inj (k n : nat) :
  (k < Z.to_nat TRYTE_NUM_VALUES)%nat -> (n < Z.to_nat TRYTE_NUM_VALUES)%nat ->
  cell k = cell n -> k = n.
Proof.
  intros Hk Hn H. unfold cell in H.
  pose proof (wrap_range (Z.of_nat k)). pose proof (wrap_range (Z.of_nat n)).
  apply (f_equal Z.of_nat) in H. rewrite !Z2Nat.id in H by lia.
  unfold wrap, TRYTE_NUM_VALUES in *. Z.div_mod_to_equations. lia.
Qed.

Lemma alu_add_one (n : nat) :
  alu_add (digits 9 (wrap (Z.of_nat n))) (n2t_const 1) = digits 9 (wrap (Z.of_nat (S n))).
Proof.
  unfold alu_add. rewrite t2n_word_digits by (rewrite trit_bound_9; apply wrap_range).
  rewrite n2t_const_val by lia. rewrite wrap_succ. rewrite Nat2Z.inj_succ, Z.add_1_r.
  reflexivity.
Qed.

Lemma lookup_repeat_lt {A} (a : A) (n i : nat) : (i < n)%nat -> repeat a n !! i = Some a.
Proof.
  revert i. induction n as [| n IH]; intros i Hi; [lia |].
  destruct i as [| i]; [reflexivity |]. simpl. apply IH. lia.
Qed.

Lemma image_inv_new : image_inv (Memory_new None) [].
Proof.
  unfold image_inv, Memory_new. cbn [block]. split; [apply repeat_length |]. split.
  - intros k w Hk. discriminate Hk.
  - intros k _. apply lookup_repeat_lt, cell_lt.
Qed.

Lemma image_store (m m' : Memory) (ws : list tryte) (w : tryte) :
  image_inv m ws -> (length ws < Z.to_nat TRYTE_NUM_VALUES)%nat -> length w = 9%nat ->
  store m (TTryte w) (TTryte (digits 9 (wrap (Z.of_nat (length ws))))) = Ok m' ->
  image_inv m' (ws ++ [w]).
Proof.
  intros (Hlen & Hws & Hzero) Hn Hw Hs.
  unfold store in Hs. cbn [t2n] in Hs. cbv [mbind res_mbind res_bind] in Hs.
  rewrite t2n_word_digits in Hs by (rewrite trit_bound_9; apply wrap_range).
  injection Hs as <-. unfold image_inv. cbn [block]. unfold i32_set.
  pose proof (wrap_range (Z.of_nat (length ws))) as Hr.
  destruct (Z.ltb_spec (wrap (Z.of_nat (length ws)) + 9841) 0); [lia |].
  rewrite to_int32_small by (apply word_range; exact Hw).
  change (Z.to_nat (wrap (Z.of_nat (length ws)) + 9841)) with (cell (length ws)).
  pose proof (cell_lt (length ws)) as Hc.
  split; [rewrite length_insert; exact Hlen |]. split.
  - intros k v Hk. destruct (decide (k = length ws)) as [-> | Hne].
    + rewrite lookup_app_r in Hk by lia. rewrite Nat.sub_diag in Hk.
      injection Hk as <-. apply list_lookup_insert_eq. lia.
    + assert (Hlt : (k < length ws)%nat).
      { apply lookup_lt_Some in Hk. rewrite length_app in Hk. simpl in Hk. lia. }
      rewrite lookup_app_l in Hk by exact Hlt.
      rewrite list_lookup_insert_ne; [exact (Hws k v Hk) |].
      intros Heq. apply Hne. symmetry. exact (cell_inj (length ws) k Hn ltac:(lia) Heq).
  - intros k Hk. rewrite length_app in Hk. simpl in Hk.
    rewrite list_lookup_insert_ne; [apply Hzero; lia |].
    intros Heq. pose proof (cell_inj (length ws) k Hn ltac:(lia) Heq). lia.
Qed.

Lemma s2t_chars_length (s : string) (ds : list trit) :
  s2t_chars s = Some ds -> length ds = String.length s.
Proof.
  revert ds. induction s as [| c s IH]; intros ds H; simpl in H.
  - injection H as <-. reflexivity.
  - destruct (trit_of_char c) as [d |]; destruct (s2t_chars s) as [ds' |] eqn:E;
      try discriminate H.
    injection H as <-. simpl. f_equal. exact (IH ds' eq_refl).
Qed.

Lemma s2t_length (s : string) (t : tryte) : s2t s = Ok t -> length t = 9%nat.
Proof.
  unfold s2t. destruct (String.length s =? 9)%nat eqn:E; [| discriminate].
  destruct (s2t_chars s) as [ds |] eqn:Ec; [| discriminate].
  intros H. injection H as <-. rewrite (s2t_chars_length _ _ Ec).
  apply Nat.eqb_eq. exact E.
Qed.

Lemma parseImmediateOperand_length (o : option string) (t : tryte) :
  parseImmediateOperand o = Some t -> length t = 9%nat.
Proof.
  unfold parseImmediateOperand. intros H.
  repeat case_match; try discriminate H; injection H as ->; eapply s2t_length; eassumption.
Qed.

Lemma parseAddressOperand_tryte (o : option string) (t : tryte) :
  parseAddressOperand o = Some (ZTryte t) -> length t = 9%nat.
Proof.
  unfold parseAddressOperand. intros H.
  repeat case_match; try discriminate H; injection H as ->; eapply s2t_length; eassumption.
Qed.

Lemma unionParseYZ_ztryte (opc xv : tryte) (o : option string) (b : bool)
  (i : InstructionLabeled) (t : tryte) :
  unionParseYZ opc xv o b = Some i -> z i = Some (ZTryte t) -> length t = 9%nat.
Proof.
  unfold unionParseYZ. intros H Hz.
  destruct (parseRegisterOperand o); [injection H as <-; discriminate Hz |].
  destruct (parseImmediateOperand o) as [t' |] eqn:Ei.
  { destruct (isShort t'); injection H as <-; cbn [z] in Hz; [discriminate Hz |].
    injection Hz as <-. exact (parseImmediateOperand_length _ _ Ei). }
  destruct b; [| discriminate H].
  destruct (parseAddressOperand o) as [a |] eqn:Ea; [| discriminate H].
  destruct (zval_truthy a); [| discriminate H].
  injection H as <-. cbn [z] in Hz. injection Hz as ->.
  exact (parseAddressOperand_tryte _ _ Ea).
Qed.

Lemma parseInstruction_ztryte (mn : string) (ops : list string) (i : InstructionLabeled)
  (rest : list string) (t : tryte) :
  parseInstruction mn ops = Ok (i, rest) -> z i = Some (ZTryte t) -> length t = 9%nat.
Proof.
  unfold parseInstruction. generalize (toUpperCase mn) as m. intros m.
  split_mnemonic; cbv beta iota; intros H Hz; try discriminate H;
    first
      [ injection H as <- <-; discriminate Hz
      | unfold parse_reg_yz in H; destruct (shift ops) as [o1 ops1];
        destruct (parseRegisterOperand o1); [| discriminate H];
        cbv [expect mbind res_mbind res_bind] in H;
        destruct (shift ops1) as [o2 ops2];
        destruct (unionParseYZ _ _ o2 false) eqn:E; [| discriminate H];
        injection H as <- <-; exact (unionParseYZ_ztryte _ _ _ _ _ _ E Hz)
      | destruct (shift ops) as [o ops1];
        destruct (unionParseYZ _ _ o true) eqn:E; [| discriminate H];
        cbv [expect mbind res_mbind res_bind] in H; injection H as <- <-;
        exact (unionParseYZ_ztryte _ _ _ _ _ _ E Hz) ].
Qed.

Lemma Ok_inj {A : Type} (a b : A) : Ok a = Ok b -> a = b.
Proof. intros H. injection H. auto. Qed.

Lemma Ok_pair_inj {A B : Type} (a a' : A) (b b' : B) :
  Ok (a, b) = Ok (a', b') -> a = a' /\ b = b'.
Proof. intros H. injection H. auto. Qed.

Lemma assembleInstruction_words (i : InstructionLabeled) (L : gmap string tryte)
  (d0 : tryte) (d1 : option tryte) :
  assembleInstruction i L = Ok (d0, d1) ->
  length d0 = 9%nat /\
  (forall w, d1 = Some w ->
     (exists t, z i = Some (ZTryte t) /\ w = t) \/ (exists name, L !! name = Some w)).
Proof.
  unfold assembleInstruction. cbv zeta.
  destruct (_ && _ && _); [| discriminate].
  destruct (addressingMode i); cbv beta iota;
    try (intros H; destruct (Ok_pair_inj _ _ _ _ H) as [<- <-];
         split; [rewrite !length_app, !digits_length; reflexivity
                | intros w Hw; discriminate Hw]).
  destruct (z i) as [[t | name] |]; [| destruct (L !! name) as [a |] eqn:Ea |];
    intros H; try discriminate H; destruct (Ok_pair_inj _ _ _ _ H) as [<- <-];
    (split; [rewrite !length_app, !digits_length; reflexivity | intros w Hw; injection Hw as <-]);
    eauto.
Qed.

Lemma line_words_length (L : gmap string tryte) (l : string) :
  map_Forall (fun _ v => length v = 9%nat) L ->
  Forall (fun w => length w = 9%nat) (line_words L l).
Proof.
  intros HL. unfold line_words. destruct (is_label_line l); [constructor |].
  destruct (parseInstructionParts l) as [| mn ops]; [constructor |].
  destruct (parseInstruction mn ops) as [[i rest] | e] eqn:Ep; [| constructor].
  destruct (assembleInstruction i L) as [[d0 d1] | e] eqn:Ea; [| constructor].
  destruct (assembleInstruction_words _ _ _ _ Ea) as [H0 H1].
  destruct d1 as [w |]; [| constructor; [exact H0 | constructor]].
  constructor; [exact H0 | constructor; [| constructor]].
  destruct (H1 w eq_refl) as [(t & Hz & ->) | (name & Hn)].
  - exact (parseInstruction_ztryte _ _ _ _ _ Ep Hz).
  - exact (HL name w Hn).
Qed.

Lemma encoded_words_length (L : gmap string tryte) (ls : list string) :
  map_Forall (fun _ v => length v = 9%nat) L ->
  Forall (fun w => length w = 9%nat) (encoded_words L ls).
Proof.
  intros HL. unfold encoded_words. induction ls as [| l ls IH]; simpl; [constructor |].
  apply Forall_app. split; [apply line_words_length; exact HL | exact IH].
Qed.

Lemma pass1_line_lengths (st st' : P1) (l : string) :
  length (p1_address st) = 9%nat ->
  map_Forall (fun _ v => length v = 9%nat) (p1_labels st) ->
  pass1_line st l = Ok st' ->
  length (p1_address st') = 9%nat /\ map_Forall (fun _ v => length v = 9%nat) (p1_labels st').
Proof.
  intros Ha HL. unfold pass1_line. destruct (is_label_line l); cbn [negb]; intros H.
  - injection H as <-. cbn [p1_address p1_labels]. split; [exact Ha |].
    apply map_Forall_insert_2; assumption.
  - destruct (parseInstructionParts l) as [| mn ops]; [discriminate H |].
    destruct (parseInstruction mn ops) as [[i [| r rest]] | e];
      cbv [mbind res_mbind res_bind] in H; try discriminate H.
    injection H as <-. cbn [p1_address p1_labels]. split; [| exact HL].
    destruct (z_truthy (z i)); unfold alu_add; apply digits_length.
Qed.

Lemma pass1_lengths (ls : list string) (st st' : P1) :
  length (p1_address st) = 9%nat ->
  map_Forall (fun _ v => length v = 9%nat) (p1_labels st) ->
  pass1 ls st = Ok st' ->
  map_Forall (fun _ v => length v = 9%nat) (p1_labels st').
Proof.
  revert st. induction ls as [| l ls IH]; intros st Ha HL H.
  - injection H as <-. exact HL.
  - simpl in H. cbv [mbind res_mbind res_bind] in H.
    destruct (pass1_line st l) as [s |] eqn:E; [| discriminate H].
    destruct (pass1_line_lengths st s l Ha HL E) as [Ha' HL'].
    exact (IH s Ha' HL' H).
Qed.

Lemma pass2_line_image (L : gmap string tryte) (st st' : P2) (l : string) (ws : list tryte) :
  map_Forall (fun _ v => length v = 9%nat) L ->
  p2_address st = digits 9 (wrap (Z.of_nat (length ws))) ->
  image_inv (p2_cart st) ws ->
  (length (ws ++ line_words L l) <= Z.to_nat TRYTE_NUM_VALUES)%nat ->
  pass2_line L st l = Ok st' ->
  p2_address st' = digits 9 (wrap (Z.of_nat (length (ws ++ line_words L l)))) /\
  image_inv (p2_cart st') (ws ++ line_words L l).
Proof.
  intros HL Ha Hi Hn H. pose proof (line_words_length L l HL) as Hw.
  unfold pass2_line in H. destruct (is_label_line l) eqn:El; cbn [negb] in H.
  { injection H as <-.
    assert (Hlw : line_words L l = []) by (unfold line_words; rewrite El; reflexivity).
    rewrite Hlw, app_nil_r. auto. }
  destruct (parseInstructionParts l) as [| mn ops] eqn:Ep; [discriminate H |].
  destruct (parseInstruction mn ops) as [[i rest] | e] eqn:Epi;
    cbv [mbind res_mbind res_bind] in H; [| discriminate H].
  destruct (assembleInstruction i L) as [[d0 d1] | e] eqn:Ea; cbv beta iota in H;
    [| discriminate H].
  rewrite Ha, alu_add_one in H.
  destruct (store (p2_cart st) (TTryte d0) (TTryte (digits 9 (wrap (Z.of_nat (length ws))))))
    as [c1 |] eqn:E1; cbv beta iota in H; [| discriminate H].
  assert (Hlw : line_words L l = d0 :: match d1 with Some w1 => [w1] | None => [] end)
    by (unfold line_words; rewrite El, Ep, Epi, Ea; destruct d1; reflexivity).
  rewrite Hlw in Hn, Hw |- *.
  assert (Hi1 : image_inv c1 (ws ++ [d0])).
  { apply (image_store (p2_cart st) c1 ws d0 Hi); [| | exact E1].
    - rewrite length_app in Hn. simpl in Hn. lia.
    - inversion Hw; assumption. }
  destruct d1 as [w1 |]; cbv beta iota in H, Hn, Hw |- *.
  - replace (S (length ws)) with (length (ws ++ [d0])) in H
      by (rewrite length_app; simpl; lia).
    destruct (store c1 (TTryte w1) (TTryte (digits 9 (wrap (Z.of_nat (length (ws ++ [d0])))))))
      as [c2 |] eqn:E2; cbv beta iota in H; [| discriminate H].
    apply Ok_inj in H. subst st'. cbn [p2_address p2_cart].
    replace (ws ++ [d0; w1]) with ((ws ++ [d0]) ++ [w1])
      by (rewrite <- app_assoc; reflexivity).
    rewrite alu_add_one. split.
    + f_equal. f_equal. rewrite !length_app. simpl. lia.
    + apply (image_store c1 c2 (ws ++ [d0]) w1 Hi1); [| | exact E2].
      * rewrite !length_app in Hn |- *. simpl in Hn |- *. lia.
      * inversion Hw as [| ? ? _ Hw']. inversion Hw'. assumption.
  - apply Ok_inj in H. subst st'. cbn [p2_address p2_cart]. split; [| exact Hi1].
    f_equal. f_equal. rewrite length_app. simpl. lia.
Qed.

Lemma pass2_image (L : gmap string tryte) (ls : list string) (st st' : P2) (ws : list tryte) :
  map_Forall (fun _ v => length v = 9%nat) L ->
  p2_address st = digits 9 (wrap (Z.of_nat (length ws))) ->
  image_inv (p2_cart st) ws ->
  (length (ws ++ encoded_words L ls) <= Z.to_nat TRYTE_NUM_VALUES)%nat ->
  pass2 L ls st = Ok st' ->
  image_inv (p2_cart st') (ws ++ encoded_words L ls).
Proof.
  revert st ws. induction ls as [| l ls IH]; intros st ws HL Ha Hi Hn H.
  - injection H as <-. change (encoded_words L []) with (@nil tryte).
    rewrite app_nil_r. exact Hi.
  - simpl in H. cbv [mbind res_mbind res_bind] in H.
    destruct (pass2_line L st l) as [s |] eqn:E; [| discriminate H].
    change (encoded_words L (l :: ls)) with (line_words L l ++ encoded_words L ls) in Hn |- *.
    rewrite app_assoc in Hn |- *.
    assert (Hn1 : (length (ws ++ line_words L l) <= Z.to_nat TRYTE_NUM_VALUES)%nat)
      by (rewrite !length_app in Hn; rewrite !length_app; lia).
    destruct (pass2_line_image L st s l ws HL Ha Hi Hn1 E) as [Ha' Hi'].
    exact (IH s (ws ++ line_words L l) HL Ha' Hi' Hn H).
Qed.

Lemma image_load (m : Memory) (k : nat) (v : Z) :
  block m !! cell k = Some v -> -9841 <= v <= 9841 ->
  load m (TNum (wrap (Z.of_nat k))) = n2t v.
Proof.
  intros Hb Hv. unfold load. rewrite t2n_TNum.
  rewrite (proj2 (in_word_range_spec _) (wrap_range _)).
  cbv [mbind res_mbind res_bind]. unfold i32_get.
  pose proof (wrap_range (Z.of_nat k)).
  destruct (Z.ltb_spec (wrap (Z.of_nat k) + 9841) 0); [lia |].
  change (Z.to_nat (wrap (Z.of_nat k) + 9841)) with (cell k). rewrite Hb. reflexivity.
Qed.

(** The program image: when [assemble] succeeds on a program of at most
    19683 words, the memory it returns holds the program's [k]-th encoded
    word (the words of [assembleInstruction] on the instruction lines, in
    order) at address [wrap k], i.e. 0, 1, ..., 9841, then -9841, ...; every
    other address holds zero. *)
Theorem assemble_image (input : string) (r : Assembled) :
  assemble input = Ok r ->
  (length (encoded_words (labels r) (preprocess input)) <= Z.to_nat TRYTE_NUM_VALUES)%nat ->
  (forall k w, encoded_words (labels r) (preprocess input) !! k = Some w ->
     load (mem r) (TNum (wrap (Z.of_nat k))) = Ok w) /\
  (forall k, (length (encoded_words (labels r) (preprocess input)) <= k
              < Z.to_nat TRYTE_NUM_VALUES)%nat ->
     load (mem r) (TNum (wrap (Z.of_nat k))) = Ok (n2t_const 0)).
Proof.
  unfold assemble. intros H Hn.
  destruct (assemble_lines_ok_inv _ _ _ _ H) as (st1 & st2 & H1 & H2 & ->).
  cbn [labels mem] in Hn |- *.
  assert (HL : map_Forall (fun _ v => length v = 9%nat) (p1_labels st1)).
  { exact (pass1_lengths _ (p1_init ∅) _ (n2t_const_length 0) (map_Forall_empty _) H1). }
  pose proof (encoded_words_length _ (preprocess input) HL) as Hw.
  destruct (pass2_image (p1_labels st1) (preprocess input) (p2_init (Memory_new None)) st2 []
              HL eq_refl image_inv_new Hn H2) as (_ & Hws & Hzero).
  split.
  - intros k w Hk. pose proof (Forall_lookup_1 _ _ _ _ Hw Hk) as Hlw.
    rewrite (image_load _ k (t2n_word w)) by
      (first [exact (Hws k w Hk) | apply word_range; exact Hlw]).
    apply n2t_t2n_word. exact Hlw.
  - intros k Hk. rewrite (image_load _ k 0) by (first [apply Hzero; exact Hk | lia]).
    reflexivity.
Qed.

Lemma assemble_image_witness :
  exists r, assemble ("MOV r1, +--------" ++ String "010"%char ("JMP .top" ++ String "010"%char (".top" ++ String "010"%char "NOP")))%string = Ok r /\
    (length (encoded_words (labels r) (preprocess ("MOV r1, +--------" ++ String "010"%char ("JMP .top" ++ String "010"%char (".top" ++ String "010"%char "NOP")))%string))
       <= Z.to_nat TRYTE_NUM_VALUES)%nat /\
    (forall k w, encoded_words (labels r) (preprocess ("MOV r1, +--------" ++ String "010"%char ("JMP .top" ++ String "010"%char (".top" ++ String "010"%char "NOP")))%string)
                   !! k = Some w ->
       load (mem r) (TNum (wrap (Z.of_nat k))) = Ok w) /\
    (forall k, (length (encoded_words (labels r) (preprocess ("MOV r1, +--------" ++ String "010"%char ("JMP .top" ++ String "010"%char (".top" ++ String "010"%char "NOP")))%string))
                <= k < Z.to_nat TRYTE_NUM_VALUES)%nat ->
       load (mem r) (TNum (wrap (Z.of_nat k))) = Ok (n2t_const 0)).
Proof.
  destruct (assemble ("MOV r1, +--------" ++ String "010"%char ("JMP .top" ++ String "010"%char (".top" ++ String "010"%char "NOP")))%string) as [r | e] eqn:E.
  - exists r.
    assert (Hn : (length (encoded_words (labels r)
                   (preprocess ("MOV r1, +--------" ++ String "010"%char ("JMP .top" ++ String "010"%char (".top" ++ String "010"%char "NOP")))%string))
                  <= Z.to_nat TRYTE_NUM_VALUES)%nat).
    { assert (Hl : labels r = match assemble ("MOV r1, +--------" ++ String "010"%char ("JMP .top" ++ String "010"%char (".top" ++ String "010"%char "NOP")))%string with
                              | Ok a => labels a | Throw _ => ∅ end)
        by (rewrite E; reflexivity).
      rewrite Hl. apply Nat.leb_le. vm_compute. reflexivity. }
    split; [reflexivity |]. split; [exact Hn |].
    exact (assemble_image _ r E Hn).
  - vm_compute in E. discriminate E.
Defined.

(** ** [parseInt] and [assembleOperandStr] *)

Lemma char_is_true (o : option ascii) (c : ascii) : char_is o c = true -> o = Some c.
Proof.
  destruct o as [d |]; simpl; [| discriminate].
  intros H. apply Ascii.eqb_eq in H. subst. reflexivity.
Qed.

Lemma char_is_here (c : ascii) (s : string) : char_is (String.get 0 (String c s)) c = true.
Proof. simpl. apply Ascii.eqb_refl. Qed.

Lemma parseRegister_range (s : string) (r : Z) : parseRegister s = Ok r -> 0 <= r <= 11.
Proof.
  unfold parseRegister. destruct (parseInt (substr1 s)) as [v |]; [| discriminate].
  destruct (Z.ltb_spec v 0); destruct (Z.ltb_spec 11 v); simpl; intros Hres;
    try discriminate Hres.
  injection Hres as <-. lia.
Qed.

(** The first word of an assembled operand tells its kind: a register
    ([r]) gives 1..12 and a register pointer ([*r]) gives -11..0, both with
    no second word; an immediate or an address gives -13 or -12 and a
    second word. *)
Theorem assembleOperandStr_kinds (operand : string) (labels : gmap string Z)
  (t : tryte) (d : option tryte) :
  assembleOperandStr operand labels = Ok (t, d) ->
  match d with
  | None =>
      (String.get 0 operand = Some "r"%char /\ 1 <= t2n_word t <= 12) \/
      (String.get 0 operand = Some "*"%char /\ -11 <= t2n_word t <= 0)
  | Some _ => t2n_word t = -13 \/ t2n_word t = -12
  end.
Proof.
  unfold assembleOperandStr.
  destruct (char_is (String.get 0 operand) "r"%char) eqn:Er.
  { destruct (parseRegister operand) as [reg |] eqn:Ep;
      cbv [mbind res_mbind res_bind]; [| discriminate].
    pose proof (parseRegister_range _ _ Ep) as Hrg.
    rewrite (n2t_ok (reg + 1)) by lia. cbv beta iota.
    intros H. destruct (Ok_pair_inj _ _ _ _ H) as [<- <-]. cbv beta iota.
    left. split; [exact (char_is_true _ _ Er) |].
    rewrite t2n_word_digits by (rewrite trit_bound_9; lia). lia. }
  destruct (char_is (String.get 0 operand) "."%char) eqn:Ed.
  { destruct (labels !! substr1 operand) as [addr |]; [| discriminate].
    cbv [mbind res_mbind res_bind]. rewrite (n2t_ok (-13)) by lia. cbv beta iota.
    destruct (n2t addr) as [a |]; cbv beta iota; [| discriminate].
    intros H. destruct (Ok_pair_inj _ _ _ _ H) as [<- <-]. cbv beta iota.
    left. rewrite t2n_word_digits by (rewrite trit_bound_9; lia). reflexivity. }
  destruct (char_is (String.get 0 operand) "*"%char) eqn:Es.
  { destruct (char_is (String.get 1 operand) "r"%char).
    - destruct (parseRegister (substr1 operand)) as [reg |] eqn:Ep;
        cbv [mbind res_mbind res_bind]; [| discriminate].
      pose proof (parseRegister_range _ _ Ep) as Hrg.
      rewrite (n2t_ok (reg - 11)) by lia. cbv beta iota.
      intros H. destruct (Ok_pair_inj _ _ _ _ H) as [<- <-]. cbv beta iota.
      right. split; [exact (char_is_true _ _ Es) |].
      rewrite t2n_word_digits by (rewrite trit_bound_9; lia). lia.
    - destruct (char_is (String.get 2 operand) "."%char); [discriminate |].
      cbv [mbind res_mbind res_bind]. rewrite (n2t_ok (-12)) by lia. cbv beta iota.
      destruct (s2t (substr1 operand)) as [a |]; cbv beta iota; [| discriminate].
      intros H. destruct (Ok_pair_inj _ _ _ _ H) as [<- <-]. cbv beta iota.
      right. rewrite t2n_word_digits by (rewrite trit_bound_9; lia). reflexivity. }
  cbv [mbind res_mbind res_bind]. rewrite (n2t_ok (-13)) by lia. cbv beta iota.
  destruct (s2t operand) as [a |]; cbv beta iota; [| discriminate].
  intros H. destruct (Ok_pair_inj _ _ _ _ H) as [<- <-]. cbv beta iota.
  left. rewrite t2n_word_digits by (rewrite trit_bound_9; lia). reflexivity.
Qed.

Lemma assembleOperandStr_kinds_witness :
  exists t d, assembleOperandStr "*r3" ∅ = Ok (t, d) /\
    match d with
    | None =>
        (String.get 0 "*r3" = Some "r"%char /\ 1 <= t2n_word t <= 12) \/
        (String.get 0 "*r3" = Some "*"%char /\ -11 <= t2n_word t <= 0)
    | Some _ => t2n_word t = -13 \/ t2n_word t = -12
    end.
Proof.
  destruct (assembleOperandStr "*r3" ∅) as [[t d] | e] eqn:E.
  - exists t, d. split; [reflexivity |].
    exact (assembleOperandStr_kinds "*r3" ∅ t d E).
  - vm_compute in E. discriminate E.
Defined.

Lemma digit_value_non_decimal (c : ascii) (v : Z) :
  is_decimal c = false -> digit_value c = Some v -> 10 <= v.
Proof.
  unfold is_decimal, digit_value. cbv zeta. intros Hc.
  destruct (Nat.leb_spec 48 (nat_of_ascii c)); destruct (Nat.leb_spec (nat_of_ascii c) 57);
    simpl in Hc; try discriminate Hc;
    repeat match goal with
    | |- context [?a <=? ?b] => destruct (Z.leb_spec a b)
    end; simpl; intros Hd; try discriminate Hd; injection Hd as <-; lia.
Qed.

Lemma digits_prefix_stop (rest : string) (acc : Z) :
  (forall c r, rest = String c r -> is_decimal c = false) ->
  digits_prefix 10 rest acc true = Some acc.
Proof.
  destruct rest as [| c r]; intros H; [reflexivity |].
  specialize (H c r eq_refl). simpl.
  destruct (digit_value c) as [v |] eqn:Ev; [| reflexivity].
  pose proof (digit_value_non_decimal c v H Ev) as Hge.
  destruct (Z.ltb_spec v 10); [lia | reflexivity].
Qed.

Lemma parseInt_digit (w rest : string) (n : nat) :
  js_blank w -> (n <= 9)%nat ->
  (forall c r, rest = String c r ->
     is_decimal c = false /\ (n = 0%nat -> c <> "x"%char /\ c <> "X"%char)) ->
  parseInt (w ++ String (ascii_of_nat (48 + n)) rest)%string = Some (Z.of_nat n).
Proof.
  intros Hw Hn Hr. unfold parseInt. rewrite trim_start_blank by exact Hw.
  assert (Hstop : forall acc, digits_prefix 10 rest acc true = Some acc).
  { intros acc. apply digits_prefix_stop. intros c r E. exact (proj1 (Hr c r E)). }
  destruct n as [| [| [| [| [| [| [| [| [| [| n]]]]]]]]]]; [| | | | | | | | | | lia];
    try (simpl; rewrite Hstop; reflexivity).
  destruct rest as [| c r]; [reflexivity |].
  destruct (proj2 (Hr c r eq_refl) eq_refl) as [Hx HX].
  simpl. rewrite (proj2 (Ascii.eqb_neq c "x"%char) Hx), (proj2 (Ascii.eqb_neq c "X"%char) HX).
  simpl. destruct (digit_value c) as [v |] eqn:Ev; [| reflexivity].
  pose proof (digit_value_non_decimal c v (proj1 (Hr c r eq_refl)) Ev) as Hge.
  destruct (Z.ltb_spec v 10); [lia | reflexivity].
Qed.

(** A register operand [r<digit>] may have white space before the digit
    and any text after it that does not go on with the number: [parseInt]
    reads the longest numeric prefix, so ["r 1x"] is register 1. *)
Theorem assembleOperandStr_register_digit (w rest : string) (n : nat)
  (labels : gmap string Z) :
  js_blank w -> (n <= 9)%nat ->
  (forall c r, rest = String c r ->
     is_decimal c = false /\ (n = 0%nat -> c <> "x"%char /\ c <> "X"%char)) ->
  assembleOperandStr (String "r"%char (w ++ String (ascii_of_nat (48 + n)) rest)) labels =
    Ok (n2t_const (Z.of_nat n + 1), None).
Proof.
  intros Hw Hn Hr. unfold assembleOperandStr. rewrite char_is_here. cbv beta iota.
  unfold parseRegister. cbn [substr1]. rewrite (parseInt_digit w rest n Hw Hn Hr).
  replace ((Z.of_nat n <? 0) || (11 <? Z.of_nat n)) with false
    by (symmetry; apply orb_false_iff; split; apply Z.ltb_ge; lia).
  cbv [mbind res_mbind res_bind]. rewrite n2t_ok by lia. reflexivity.
Qed.

Lemma assembleOperandStr_register_digit_witness :
  assembleOperandStr (String "r"%char (" " ++ String (ascii_of_nat (48 + 1)) "x")) ∅ =
    Ok (n2t_const (Z.of_nat 1 + 1), None).
Proof.
  apply assembleOperandStr_register_digit.
  - unfold js_blank. repeat constructor.
  - lia.
  - intros c r E. injection E as <- <-. split; [reflexivity | intros H; discriminate H].
Defined.




(** What the pointer branch does reject as a ROM label: any operand
    [*<c>.<rest>] with [c] not [r]. *)
Theorem assembleOperandStr_rom_label (c : ascii) (rest : string) (labels : gmap string Z) :
  c <> "r"%char ->
  assembleOperandStr (String "*"%char (String c (String "."%char rest))) labels =
    Throw (Error ("ROM label not allowed here: " ++ String "*"%char (String c (String "."%char rest)))).
Proof.
  intros Hc. unfold assembleOperandStr.
  assert (H1 : char_is (String.get 1 (String "*"%char (String c (String "."%char rest)))) "r"%char
               = false) by (simpl; apply Ascii.eqb_neq; exact Hc).
  rewrite H1. reflexivity.
Qed.

Lemma assembleOperandStr_rom_label_witness :
  assembleOperandStr (String "*"%char (String "o"%char (String "."%char "foo"))) ∅ =
    Throw (Error ("ROM label not allowed here: " ++ String "*"%char (String "o"%char (String "."%char "foo")))).
Proof. apply assembleOperandStr_rom_label. discriminate. Defined.

(** ** [assembleOpcodeStr] *)

Lemma spec_opcode_table_inj (m1 m2 : string) (v : Z) :
  spec_opcode_table m1 = Some v -> spec_opcode_table m2 = Some v -> m1 = m2.
Proof.
  unfold spec_opcode_table. split_mnemonic; cbv beta iota; intros H1 H2; congruence.
Qed.

(** [assembleOpcodeStr] reads the mnemonic case-insensitively and gives
    different mnemonics different opcodes: a mnemonic gets the opcode [t]
    exactly when it upper-cases to the same word as one that does. *)
Theorem assembleOpcodeStr_injective (a b : string) (t : tryte) :
  assembleOpcodeStr a = Ok t ->
  (assembleOpcodeStr b = Ok t <-> toUpperCase b = toUpperCase a).
Proof.
  intros Ha. split.
  - intros Hb. destruct (assembleOpcodeStr_spec _ _ Ha) as [Ea _].
    destruct (assembleOpcodeStr_spec _ _ Hb) as [Eb _].
    exact (spec_opcode_table_inj _ _ _ Eb Ea).
  - intros E. revert Ha. unfold assembleOpcodeStr. cbv zeta. rewrite E.
    generalize (toUpperCase a) as m. intros m.
    split_mnemonic; cbv beta iota; intros H; first [exact H | discriminate H].
Qed.

Lemma assembleOpcodeStr_injective_witness :
  assembleOpcodeStr "add" = Ok (n2t_const (-13)) /\
  (assembleOpcodeStr "ADD" = Ok (n2t_const (-13)) <-> toUpperCase "ADD" = toUpperCase "add").
Proof.
  split; [reflexivity |].
  apply (assembleOpcodeStr_injective "add" "ADD"). reflexivity.
Defined.
